(** * A per-guild playback queue: the message-driven music bot

    Shallow embedding of the queueing bot (the script that keeps
    [const queue = new Map()]): its [messageCreate] listener, the two
    player listeners it installs for every new session, and [playSong].

    The JavaScript objects are kept as objects: the [Map] holds references
    to [queueConstruct] records living in a heap, and the listeners close
    over the record, the connection and the guild id they were created
    with, so that a listener of a session that is no longer in the [Map]
    still acts on its own record.

    The voice library is outside the repository.  Its players and
    connections are modelled by the small contract the script relies on
    (section "Voice transport"); what it emits and when is an input of the
    model, one [event] at a time, as the event loop delivers it. *)

From stdpp Require Import gmap strings list.
From Stdlib Require Import DecimalString Ascii.

Open Scope string_scope.
Open Scope list_scope.
Open Scope nat_scope.

(** ** Data *)

Abbreviation guild_id := nat (only parsing).
Abbreviation channel_id := nat (only parsing).
Abbreviation player_id := nat (only parsing).
Abbreviation conn_id := nat (only parsing).
Abbreviation ref := nat (only parsing).

(** [const song = { title: songInfo.title, url: songInfo.url }] *)
Record song := Song { title : string; url : string }.

Global Instance song_eq_dec : EqDecision song.
Proof. solve_decision. Defined.

(** The [queueConstruct] object literal.  [connection] starts as [null];
    a field of a JavaScript object may hold [undefined], hence the
    options. *)
Record session := Session {
  voiceChannel : channel_id;
  textChannel : channel_id;
  connection : option conn_id;
  player : option player_id;
  songs : list song
}.

Definition with_connection (c : option conn_id) (s : session) : session :=
  Session (voiceChannel s) (textChannel s) c (player s) (songs s).

Definition with_songs (l : list song) (s : session) : session :=
  Session (voiceChannel s) (textChannel s) (connection s) (player s) l.

(** The texts the bot sends, one constructor per string literal of the
    script. *)
Inductive text :=
  | JoinVoiceFirst            (* 'Join a voice channel first!' *)
  | NeedPermissions           (* 'I need permissions to join and speak.' *)
  | ProvideSong               (* 'Provide a song name or link.' *)
  | OnlySpotifyTracks         (* 'Only Spotify tracks are supported.' *)
  | FailedToLoad              (* 'Failed to load song.' *)
  | SongNotFound              (* 'Song not found.' *)
  | FailedToJoinVC            (* 'Failed to join VC.' *)
  | AddedToQueue (t : string) (* 'Added to queue: **title**' *)
  | NoSongToSkip              (* 'No song to skip.' *)
  | Skipped                   (* 'Skipped.' *)
  | NothingIsPlaying          (* 'Nothing is playing.' *)
  | StoppedCleared            (* 'Stopped and cleared queue.' *)
  | Paused                    (* 'Paused.' *)
  | Resumed                   (* 'Resumed.' *)
  | QueueIsEmpty              (* 'Queue is empty.' *)
  | CurrentQueue (d : string) (* embed 'Current Queue' with description d *)
  | NothingPlayingNow         (* 'Nothing playing.' *)
  | NowPlayingInfo (t : string) (* the now command: 'Now playing: **title**' *)
  | NowPlaying (t : string).  (* playSong: 'Now playing: **title**' *)

(** Everything the script does to the outside world, in program order. *)
Inductive effect :=
  | Reply (t : text)                       (* message.reply(...) *)
  | Send (ch : channel_id) (t : text)      (* channel.send(...) *)
  | ConsoleError                           (* console.error(...) *)
  | CreatePlayer (p : player_id)           (* createAudioPlayer() *)
  | JoinVoice (ch : channel_id) (g : guild_id) (* joinVoiceChannel({...}) *)
  | Subscribe (c : conn_id) (p : player_id)    (* connection.subscribe(player) *)
  | OpenStream (u : string)                (* ytdl(song.url, ...) *)
  | PlayerPlay (p : player_id) (u : string)    (* player.play(resource) *)
  | PlayerStop (p : player_id)             (* player.stop() *)
  | PlayerPause (p : player_id)            (* player.pause() *)
  | PlayerUnpause (p : player_id)          (* player.unpause() *)
  | Destroy (c : conn_id).                 (* connection.destroy() *)

Global Instance text_eq_dec : EqDecision text.
Proof. solve_decision. Defined.

Global Instance effect_eq_dec : EqDecision effect.
Proof. solve_decision. Defined.

(** ** Voice transport (contract of the voice library)

    A player is idle, playing or paused; [Stopping] is a player on which
    [stop()] was called while it was not idle: it keeps its resource and
    plays a few frames of silence to the connection it is subscribed to,
    after which the library moves it to idle and emits one idle event.  A
    player whose connection was destroyed has nowhere to play to: the
    library pauses it and it stays as it is, no idle event follows.  A
    connection is live until [destroy()]; destroying it again throws. *)
Inductive player_status := PIdle | PPlaying | PPaused | PStopping.

Inductive conn_status := Live | Destroyed.

Global Instance player_status_eq_dec : EqDecision player_status.
Proof. solve_decision. Defined.

Global Instance conn_status_eq_dec : EqDecision conn_status.
Proof. solve_decision. Defined.

(** What the two listeners of a session close over: [queueConstruct],
    [connection] and [message.guild.id]. *)
Record closure := Closure {
  cl_session : ref;
  cl_connection : conn_id;
  cl_guild : guild_id
}.

(** ** The world *)

Record world := World {
  queue : gmap nat nat;              (* const queue = new Map(): guild -> object *)
  heap : gmap nat session;           (* the queueConstruct objects *)
  players : gmap nat player_status;  (* audio players of the library *)
  connections : gmap nat conn_status;(* voice connections of the library *)
  listeners : gmap nat closure;      (* player.on(Idle, ...) and player.on('error', ...) *)
  next : nat;                        (* next fresh object identity *)
  log : list effect                  (* effects so far, oldest first *)
}.

Definition initial : world := World ∅ ∅ ∅ ∅ ∅ 0 [].

Definition set_queue (f : gmap nat nat → gmap nat nat) (w : world) : world :=
  World (f (queue w)) (heap w) (players w) (connections w) (listeners w) (next w) (log w).

Definition set_heap (f : gmap nat session → gmap nat session) (w : world) : world :=
  World (queue w) (f (heap w)) (players w) (connections w) (listeners w) (next w) (log w).

Definition set_players (f : gmap nat player_status → gmap nat player_status) (w : world) : world :=
  World (queue w) (heap w) (f (players w)) (connections w) (listeners w) (next w) (log w).

Definition set_connections (f : gmap nat conn_status → gmap nat conn_status) (w : world) : world :=
  World (queue w) (heap w) (players w) (f (connections w)) (listeners w) (next w) (log w).

Definition set_listeners (f : gmap nat closure → gmap nat closure) (w : world) : world :=
  World (queue w) (heap w) (players w) (connections w) (f (listeners w)) (next w) (log w).

Definition bump (w : world) : world :=
  World (queue w) (heap w) (players w) (connections w) (listeners w) (S (next w)) (log w).

Definition add_log (e : effect) (w : world) : world :=
  World (queue w) (heap w) (players w) (connections w) (listeners w) (next w) (log w ++ [e]).

(** ** Statements: state and exceptions *)

Inductive exn :=
  | TypeError          (* property access on undefined or null *)
  | JoinFailed         (* joinVoiceChannel threw *)
  | AlreadyDestroyed   (* destroy() on a destroyed connection *)
  | DescriptionTooLong. (* setDescription() on more than 4096 characters *)

Inductive outcome (A : Type) :=
  | Done (a : A)
  | Throw (e : exn).
Arguments Done {A} a.
Arguments Throw {A} e.

Definition M (A : Type) : Type := world → outcome A * world.

Global Instance M_ret : MRet M := λ A a w, (Done a, w).

Global Instance M_bind : MBind M := λ A B f m w,
  match m w with
  | (Done a, w') => f a w'
  | (Throw e, w') => (Throw e, w')
  end.

Definition throw {A} (e : exn) : M A := λ w, (Throw e, w).

Definition modify (f : world → world) : M unit := λ w, (Done (), f w).

Definition gets {A} (f : world → A) : M A := λ w, (Done (f w), w).

(** [try { body } catch (error) { handler }] *)
Definition try_catch {A} (body : M A) (handler : exn → M A) : M A := λ w,
  match body w with
  | (Done a, w') => (Done a, w')
  | (Throw e, w') => handler e w'
  end.

Definition emit (e : effect) : M unit := modify (add_log e).

Definition fresh : M nat := λ w, (Done (next w), bump w).

(** Reading a property of a value that may be [undefined] or [null]. *)
Definition defined {A} (o : option A) : M A :=
  match o with
  | Some a => mret a
  | None => throw TypeError
  end.

(** ** Voice transport operations *)

(** [createAudioPlayer()]: a new player, idle. *)
Definition createAudioPlayer : M player_id :=
  p ← fresh;
  modify (set_players <[p := PIdle]>);;
  emit (CreatePlayer p);;
  mret p.

(** [joinVoiceChannel({...})]: a new live connection, or an exception.
    Whether the call succeeds is decided outside the script ([ok]).  The
    script joins only for a guild with no session, and between two events
    such a guild has no live connection ([inv_live] below), so the library
    has none to hand back. *)
Definition joinVoiceChannel (ch : channel_id) (g : guild_id) (ok : bool) : M conn_id :=
  emit (JoinVoice ch g);;
  if ok then
    c ← fresh;
    modify (set_connections <[c := Live]>);;
    mret c
  else throw JoinFailed.

(** [connection.destroy()] *)
Definition destroy (c : conn_id) : M unit :=
  emit (Destroy c);;
  st ← gets (λ w, connections w !! c);
  match st with
  | Some Live => modify (set_connections <[c := Destroyed]>)
  | _ => throw AlreadyDestroyed
  end.

Definition player_status_of (p : player_id) (w : world) : player_status :=
  default PIdle (players w !! p).

(** [player.play(resource)] *)
Definition player_play (p : player_id) (u : string) : M unit :=
  emit (PlayerPlay p u);;
  modify (set_players <[p := PPlaying]>).

Definition stop_status (st : player_status) : player_status :=
  match st with
  | PIdle => PIdle
  | _ => PStopping
  end.

(** A [player.play(...)] on the player [p]. *)
Definition is_play_on (p : player_id) (x : effect) : bool :=
  match x with
  | PlayerPlay q _ => bool_decide (q = p)
  | _ => false
  end.

(** [player.stop()] *)
Definition player_stop (p : player_id) : M unit :=
  emit (PlayerStop p);;
  st ← gets (player_status_of p);
  modify (set_players <[p := stop_status st]>).

Definition pause_status (st : player_status) : player_status :=
  match st with
  | PPlaying => PPaused
  | _ => st
  end.

(** [player.pause()] *)
Definition player_pause (p : player_id) : M unit :=
  emit (PlayerPause p);;
  st ← gets (player_status_of p);
  modify (set_players <[p := pause_status st]>).

Definition unpause_status (st : player_status) : player_status :=
  match st with
  | PPaused => PPlaying
  | _ => st
  end.

(** [player.unpause()] *)
Definition player_unpause (p : player_id) : M unit :=
  emit (PlayerUnpause p);;
  st ← gets (player_status_of p);
  modify (set_players <[p := unpause_status st]>).

(** ** The session store and the session objects *)

(** [queue.get(guildId)] *)
Definition queue_get (g : guild_id) : M (option ref) :=
  gets (λ w, queue w !! g).

(** [queue.set(guildId, queueConstruct)] *)
Definition queue_set (g : guild_id) (r : ref) : M unit :=
  modify (set_queue <[g := r]>).

(** [queue.delete(guildId)] *)
Definition queue_delete (g : guild_id) : M unit :=
  modify (set_queue (delete g)).

(** Evaluating an object literal: a new object in the heap. *)
Definition new_object (s : session) : M ref :=
  r ← fresh;
  modify (set_heap <[r := s]>);;
  mret r.

(** Reading the object behind a reference. *)
Definition deref (r : ref) : M session :=
  o ← gets (λ w, heap w !! r);
  defined o.

(** Property access on [serverQueue], which is [undefined] when the guild
    has no session. *)
Definition deref_opt (o : option ref) : M session :=
  r ← defined o;
  deref r.

Definition update_object (r : ref) (f : session → session) : M unit :=
  modify (set_heap (alter f r)).

(** [songs.shift()] *)
Definition shift (l : list song) : list song := tail l.

(** [songs.push(song)] *)
Definition push (x : song) (l : list song) : list song := l ++ [x].

(** ** playSong *)

Definition playSong (guildId : guild_id) (sng : option song) : M unit :=
  serverQueue ← queue_get guildId;
  match sng with
  | None => mret ()                          (* if (!song) return; *)
  | Some s =>
      emit (OpenStream (url s));;            (* ytdl(song.url, ...) *)
      sq ← deref_opt serverQueue;
      p ← defined (player sq);
      player_play p (url s);;                (* serverQueue.player.play(resource) *)
      emit (Send (textChannel sq) (NowPlaying (title s)))
  end.

(** ** The two player listeners *)

(** [player.on(AudioPlayerStatus.Idle, () => {...})] *)
Definition idle_listener (cl : closure) : M unit :=
  update_object (cl_session cl) (λ s, with_songs (shift (songs s)) s);;
  queueConstruct ← deref (cl_session cl);
  if bool_decide (0 < length (songs queueConstruct)) then
    playSong (cl_guild cl) (head (songs queueConstruct))
  else
    destroy (cl_connection cl);;
    queue_delete (cl_guild cl).

(** [player.on('error', error => {...})] *)
Definition error_listener (cl : closure) : M unit :=
  emit ConsoleError;;
  update_object (cl_session cl) (λ s, with_songs (shift (songs s)) s);;
  queueConstruct ← deref (cl_session cl);
  playSong (cl_guild cl) (head (songs queueConstruct)).

(** ** Messages *)

(** [command], after [args.shift().toLowerCase()]. *)
Inductive command :=
  | CmdPlay | CmdSkip | CmdStop | CmdPause | CmdResume | CmdQueue | CmdNow
  | CmdOther.

Global Instance command_eq_dec : EqDecision command.
Proof. solve_decision. Defined.

Record message := Message {
  prefixed : bool;             (* message.content.startsWith(prefix) *)
  author_bot : bool;           (* message.author.bot *)
  guild : guild_id;            (* message.guild.id *)
  channel : channel_id;        (* message.channel *)
  voice : option channel_id;   (* message.member.voice.channel *)
  can_connect : bool;          (* permissions.has('Connect') *)
  can_speak : bool;            (* permissions.has('Speak') *)
  cmd : command;
  search : string              (* args.join(' ') *)
}.

(** What the awaited look-ups of the play command produce; decided outside
    the script. *)
Inductive resolution :=
  | LookupThrows               (* a look-up rejected: the catch block *)
  | NotATrack                  (* a Spotify link whose data.type is not 'track' *)
  | Info (i : option song).    (* songInfo; undefined when videos[0] is *)

(** [songs.map((s, i) => `\`${i + 1}.\` ${s.title}`).join('\n')] *)
Definition decimal (n : nat) : string := NilEmpty.string_of_uint (Nat.to_uint n).

Definition newline : string := String (Ascii.ascii_of_nat 10) EmptyString.

Definition queue_line (i : nat) (s : song) : string :=
  "`" +:+ decimal (i + 1) +:+ ".` " +:+ title s.

Definition queue_description (l : list song) : string :=
  String.concat newline (imap queue_line l).

(** [new EmbedBuilder()....setDescription(d)]: the builder checks the
    description and throws when it has more than 4096 characters.  (A
    character of a string of the model stands for one UTF-16 code unit,
    which is what the builder counts.  A description built from at least
    one song is not empty, the other thing the builder checks.) *)
Definition description_limit : nat := 4096.
Arguments description_limit : simpl never.

Definition setDescription (d : string) : M string :=
  if String.length d <=? description_limit then mret d else throw DescriptionTooLong.

(** The branch of the play command taken when the guild has no session,
    [if (!serverQueue) { ... }], in its two parts.  First the player and the
    [queueConstruct] object, which is put in the store with a [null]
    connection. *)
Definition create_session (m : message) (vc : channel_id) (sng : song) : M (player_id * ref) :=
  p ← createAudioPlayer;
  queueConstruct ← new_object (Session vc (channel m) None (Some p) [sng]);
  queue_set (guild m) queueConstruct;;
  mret (p, queueConstruct).

(** Then the [try { ... } catch (error) { ... }] that joins the voice channel,
    starts the song and installs the two listeners. *)
Definition connect_session (m : message) (vc : channel_id) (sng : song) (join_ok : bool)
    (p : player_id) (queueConstruct : ref) : M unit :=
  try_catch
    (c ← joinVoiceChannel vc (guild m) join_ok;
     update_object queueConstruct (with_connection (Some c));;
     emit (Subscribe c p);;
     playSong (guild m) (Some sng);;
     modify (set_listeners <[p := Closure queueConstruct c (guild m)]>))
    (λ _,
     emit ConsoleError;;
     queue_delete (guild m);;
     emit (Reply FailedToJoinVC)).

Definition start_session (m : message) (vc : channel_id) (sng : song) (join_ok : bool) : M unit :=
  '(p, queueConstruct) ← create_session m vc sng;
  connect_session m vc sng join_ok p queueConstruct.

Definition play_command (serverQueue : option ref) (m : message)
    (res : resolution) (join_ok : bool) : M unit :=
  match voice m with
  | None => emit (Reply JoinVoiceFirst)
  | Some vc =>
      if negb (can_connect m) || negb (can_speak m) then emit (Reply NeedPermissions)
      else if bool_decide (search m = "") then emit (Reply ProvideSong)
      else
        match res with
        | LookupThrows => emit ConsoleError;; emit (Reply FailedToLoad)
        | NotATrack => emit (Reply OnlySpotifyTracks)
        | Info None => emit (Reply SongNotFound)
        | Info (Some sng) =>
            match serverQueue with
            | None => start_session m vc sng join_ok
            | Some r =>
                update_object r (λ s, with_songs (push sng (songs s)) s);;
                emit (Send (channel m) (AddedToQueue (title sng)))
            end
        end
  end.

Definition skip_command (serverQueue : option ref) (m : message) : M unit :=
  match serverQueue with
  | None => emit (Reply NoSongToSkip)
  | Some r =>
      sq ← deref r;
      p ← defined (player sq);
      player_stop p;;
      emit (Send (channel m) Skipped)
  end.

Definition stop_command (serverQueue : option ref) (m : message) : M unit :=
  match serverQueue with
  | None => emit (Reply NothingIsPlaying)
  | Some r =>
      update_object r (with_songs []);;
      sq ← deref r;
      p ← defined (player sq);
      player_stop p;;
      c ← defined (connection sq);
      destroy c;;
      queue_delete (guild m);;
      emit (Send (channel m) StoppedCleared)
  end.

Definition pause_command (serverQueue : option ref) (m : message) : M unit :=
  match serverQueue with
  | None => mret ()
  | Some r =>
      sq ← deref r;
      p ← defined (player sq);
      player_pause p;;
      emit (Send (channel m) Paused)
  end.

Definition resume_command (serverQueue : option ref) (m : message) : M unit :=
  match serverQueue with
  | None => mret ()
  | Some r =>
      sq ← deref r;
      p ← defined (player sq);
      player_unpause p;;
      emit (Send (channel m) Resumed)
  end.

Definition queue_command (serverQueue : option ref) (m : message) : M unit :=
  match serverQueue with
  | None => emit (Reply QueueIsEmpty)
  | Some r =>
      sq ← deref r;
      if bool_decide (length (songs sq) = 0) then emit (Reply QueueIsEmpty)
      else
        embed ← setDescription (queue_description (songs sq));
        emit (Send (channel m) (CurrentQueue embed))
  end.

Definition now_command (serverQueue : option ref) (m : message) : M unit :=
  match serverQueue with
  | None => emit (Reply NothingPlayingNow)
  | Some r =>
      sq ← deref r;
      match head (songs sq) with
      | None => emit (Reply NothingPlayingNow)
      | Some s => emit (Send (channel m) (NowPlayingInfo (title s)))
      end
  end.

(** The body of the [messageCreate] listener after [serverQueue] has been
    read.  The play command awaits its look-ups between reading
    [serverQueue] and using it; every other command runs without
    interruption. *)
Definition run_command (serverQueue : option ref) (m : message)
    (res : resolution) (join_ok : bool) : M unit :=
  match cmd m with
  | CmdPlay => play_command serverQueue m res join_ok
  | CmdSkip => skip_command serverQueue m
  | CmdStop => stop_command serverQueue m
  | CmdPause => pause_command serverQueue m
  | CmdResume => resume_command serverQueue m
  | CmdQueue => queue_command serverQueue m
  | CmdNow => now_command serverQueue m
  | CmdOther => mret ()
  end.

(** [client.on('messageCreate', async message => {...})], one message
    handled from its arrival to its end. *)
Definition messageCreate (m : message) (res : resolution) (join_ok : bool) : M unit :=
  if negb (prefixed m) || author_bot m then mret ()
  else
    serverQueue ← queue_get (guild m);
    run_command serverQueue m res join_ok.

(** ** Events of the event loop

    The event loop hands the script one event at a time.  An [Incoming]
    message is taken from its arrival to the end of its listener, with the
    results of the calls it awaits ([res], [join_ok]) given with it: no
    other event is handled in between.  The listener of a play message
    awaits its look-up, and other events may be handled meanwhile:
    [run_command] keeps the value of [serverQueue] apart, and [arrive] and
    [resume] below are the two parts of such a listener. *)

Inductive event :=
  | Incoming (m : message) (res : resolution) (join_ok : bool)
  | Idle (p : player_id)      (* the player p became idle *)
  | Error (p : player_id).    (* the stream of the resource of player p failed *)

(** The library moves the player to idle, then calls the listener. *)
Definition emit_idle (p : player_id) : M unit :=
  modify (set_players (alter (λ _, PIdle) p));;
  l ← gets (λ w, listeners w !! p);
  match l with
  | Some cl => idle_listener cl
  | None => mret ()
  end.

(** The library emits 'error' when the stream of the resource a player
    holds fails; an idle player holds none.  After the listener, in the
    same call, it moves the player to idle, which runs the idle listener,
    unless the listener has given the player another resource: a
    [player.play(...)] on [p] among the effects of the listener. *)
Definition emit_error (p : player_id) : M unit :=
  st ← gets (player_status_of p);
  if bool_decide (st = PIdle) then mret ()
  else
    before ← gets (λ w, length (log w));
    l ← gets (λ w, listeners w !! p);
    match l with
    | Some cl => error_listener cl
    | None => mret ()
    end;;
    since ← gets (λ w, drop before (log w));
    if existsb (is_play_on p) since then mret () else emit_idle p.

Definition dispatch (e : event) : M unit :=
  match e with
  | Incoming m res join_ok => messageCreate m res join_ok
  | Idle p => emit_idle p
  | Error p => emit_error p
  end.

(** The world after an event; what was done before an exception stays done. *)
Definition after (e : event) (w : world) : world := (dispatch e w).2.

Definition run (es : list event) (w : world) : world := foldl (λ w e, after e w) w es.

(** Worlds the bot can be in between two events: any messages and any
    player events, in any order, from the empty store; an event whose
    listener throws leaves the world it had reached. *)
Inductive reachable : world → Prop :=
  | reachable_initial : reachable initial
  | reachable_after e w : reachable w → reachable (after e w).

(** The idle event the library owes after a [stop()] on an active player,
    as long as the connection the player is subscribed to (the one its
    listeners close over) is live. *)
Definition idle_due (p : player_id) (w : world) : bool :=
  bool_decide (player_status_of p w = PStopping) &&
  match listeners w !! p with
  | Some cl => bool_decide (connections w !! cl_connection cl = Some Live)
  | None => false
  end.

(** The session of a guild, through the store and the heap. *)
Definition session_of (g : guild_id) (w : world) : option session :=
  r ← queue w !! g; heap w !! r.

(** What was added to the log between two worlds. *)
Definition effects_since (w w' : world) : list effect := drop (length (log w)) (log w').

(** Failure names of the specification, for the replies that signal them. *)
Inductive failure :=
  | NoVoiceChannel | SourceNotFound | SourceResolutionError | NothingPlaying
  | EmptyQueue | VoiceConnectError.

Definition failure_of (t : text) : option failure :=
  match t with
  | JoinVoiceFirst => Some NoVoiceChannel
  | SongNotFound => Some SourceNotFound
  | FailedToLoad => Some SourceResolutionError
  | NoSongToSkip | NothingIsPlaying | NothingPlayingNow => Some NothingPlaying
  | QueueIsEmpty => Some EmptyQueue
  | FailedToJoinVC => Some VoiceConnectError
  | _ => None
  end.

(** A message the listener does not ignore. *)
Definition accepted (m : message) : bool := prefixed m && negb (author_bot m).

(** A play message that passes the checks made before the look-up: the
    author is in a voice channel, the bot may connect and speak there,
    and there is something to look up. *)
Definition play_request (g : guild_id) (m : message) : bool :=
  accepted m && bool_decide (guild m = g) && bool_decide (cmd m = CmdPlay)
  && bool_decide (is_Some (voice m)) && can_connect m && can_speak m
  && bool_decide (search m ≠ "").

(** A play message whose look-up gave the song [s] and for which joining
    the voice channel, if it comes to that, succeeds. *)
Definition played (ms : message * song) : event :=
  Incoming ms.1 (Info (Some ms.2)) true.

(** A message carrying one of the commands that take no argument. *)
Definition plain (c : command) (g : guild_id) (ch : channel_id) : message :=
  Message true false g ch None false false c "".

(** The listener of a play message in its two parts.  On arrival it reads
    [serverQueue] (line 77) and starts its look-up; when the look-up has
    given the song, it resumes with what it read on arrival. *)
Definition arrive (m : message) (w : world) : option ref := queue w !! guild m.



(** What a reader of the embed finds in its description: one line for each
    song, in the order of the list, the line at position [i] being the
    number [i + 1] between backquotes, then the title. *)
Definition lists_in_order (d : string) (l : list song) : Prop :=
  ∃ lines, d = String.concat newline lines ∧ length lines = length l ∧
    ∀ i s, l !! i = Some s →
      lines !! i = Some ("`" +:+ decimal (i + 1) +:+ ".` " +:+ title s).

(** ** A sample run *)

Definition song_A : song := Song "A" "https://example.org/a".
Definition song_B : song := Song "B" "https://example.org/b".
Definition song_C : song := Song "C" "https://example.org/c".

Definition play_msg (g : guild_id) (q : string) : message :=
  Message true false g 7 (Some 9) true true CmdPlay q.

Definition play_A : event := played (play_msg 1 "a", song_A).
Definition play_B : event := played (play_msg 1 "b", song_B).

Definition stop_1 : event := Incoming (plain CmdStop 1 7) LookupThrows false.

(** Guild 1 playing A, with player 0, session object 1 and connection 2. *)
Definition playing_A : world := run [play_A] initial.

Definition playing_AB : world := run [play_A; play_B] initial.

(** A song whose title has 100 characters, and guild 1 after 39 play
    commands for it. *)
Definition song_X : song :=
  Song (String.concat "" (replicate 100 "x")) "https://example.org/x".

Definition long_queue : world :=
  run (replicate 39 (played (play_msg 1 "x", song_X))) initial.

(** ** Starting a session *)

(** The world after the new-session branch when the voice channel is
    joined: player [next w], session object [next w + 1] and connection
    [next w + 2]. *)
Definition started (m : message) (vc : channel_id) (sng : song) (w : world) : world :=
  let p := next w in
  let r := S (next w) in
  let c := S (S (next w)) in
  World (<[guild m := r]> (queue w))
    (<[r := Session vc (channel m) (Some c) (Some p) [sng]]> (heap w))
    (<[p := PPlaying]> (players w))
    (<[c := Live]> (connections w))
    (<[p := Closure r c (guild m)]> (listeners w))
    (S c)
    (log w ++ [CreatePlayer p; JoinVoice vc (guild m); Subscribe c p;
               OpenStream (url sng); PlayerPlay p (url sng);
               Send (channel m) (NowPlaying (title sng))]).

(** The world after the new-session branch when joining throws. *)
Definition not_started (m : message) (vc : channel_id) (sng : song) (w : world) : world :=
  let p := next w in
  let r := S (next w) in
  World (delete (guild m) (queue w))
    (<[r := Session vc (channel m) None (Some p) [sng]]> (heap w))
    (<[p := PIdle]> (players w))
    (connections w)
    (listeners w)
    (S r)
    (log w ++ [CreatePlayer p; JoinVoice vc (guild m); ConsoleError;
               Reply FailedToJoinVC]).

(** ** The invariant of the store

    It speaks of the store, the heap, the connections, the listeners and
    the allocator, not of the players' status or the log. *)
Record inv5 (q : gmap nat nat) (h : gmap nat session) (cs : gmap nat conn_status)
    (ls : gmap nat closure) (n : nat) : Prop := Inv5 {
  (* a stored session has its player, its live connection and its listeners *)
  inv_store : ∀ g r, q !! g = Some r →
    ∃ s c p, h !! r = Some s ∧ connection s = Some c ∧ player s = Some p ∧
             cs !! c = Some Live ∧ ls !! p = Some (Closure r c g);
  (* a live connection belongs to the session stored for its guild *)
  inv_live : ∀ p cl, ls !! p = Some cl → cs !! cl_connection cl = Some Live →
    q !! cl_guild cl = Some (cl_session cl);
  (* listeners of different players have different connections and objects *)
  inv_conn_inj : ∀ p p' cl cl', ls !! p = Some cl → ls !! p' = Some cl' →
    cl_connection cl = cl_connection cl' → p = p';
  inv_session_inj : ∀ p p' cl cl', ls !! p = Some cl → ls !! p' = Some cl' →
    cl_session cl = cl_session cl' → p = p';
  (* identities in use are below the allocator *)
  inv_fresh : ∀ p cl, ls !! p = Some cl →
    p < n ∧ cl_session cl < n ∧ cl_connection cl < n
}.

Definition inv (w : world) : Prop :=
  inv5 (queue w) (heap w) (connections w) (listeners w) (next w).

(** The player whose listeners hold the stored session of their guild is
    not idle. *)
Definition active (w : world) : Prop :=
  ∀ p cl, listeners w !! p = Some cl →
    queue w !! cl_guild cl = Some (cl_session cl) →
    player_status_of p w ≠ PIdle.

(** ** Listeners that resume

    The listener of a play message reads [serverQueue] on arrival and uses
    it after its awaited look-ups; other events may be handled in between.
    A step is an event handled whole, or a play listener resuming with
    whatever [serverQueue] it holds.  (A listener that resumes for a guild
    which got a session meanwhile may be handed that session's open
    connection by the library instead of a new one; what is proved of
    these worlds does not depend on which connection it is.) *)
Inductive step : world → world → Prop :=
  | step_event e w : step w (after e w)
  | step_resumed sq m res ok w : step w (play_command sq m res ok w).2.

(** Worlds the bot can be in whenever a listener starts or resumes. *)
Inductive observable : world → Prop :=
  | observable_initial : observable initial
  | observable_step w w' : observable w → step w w' → observable w'.

(** A stored session is an allocated object with both handles. *)
Definition paired3 (q : gmap nat nat) (h : gmap nat session) (n : nat) : Prop :=
  ∀ g r, q !! g = Some r →
    r < n ∧ ∃ s, h !! r = Some s ∧ is_Some (connection s) ∧ is_Some (player s).

Definition paired (w : world) : Prop := paired3 (queue w) (heap w) (next w).

(** ** Worlds after a stop and effects of an aborted play *)

(** The world after a stop command on a session with a live connection. *)
Definition stopped (m : message) (r : ref) (c : conn_id) (p : player_id) (w : world) : world :=
  add_log (Send (channel m) StoppedCleared)
    (set_queue (delete (guild m))
       (set_connections <[c := Destroyed]>
          (add_log (Destroy c)
             (set_players <[p := stop_status (player_status_of p w)]>
                (add_log (PlayerStop p)
                   (set_heap (alter (with_songs []) r) w)))))).



(** ** More of the second script: what its events touch *)

(** The guild an event belongs to: the guild of the message, or the guild
    the listeners of the player were made for. *)
Definition event_guild (w : world) (e : event) : option guild_id :=
  match e with
  | Incoming m _ _ => Some (guild m)
  | Idle p | Error p => cl_guild <$> listeners w !! p
  end.

(** Two worlds that hold the same for one guild, one session object, one
    player and one connection. *)
Definition agree (g' r' p' c' : nat) (w w' : world) : Prop :=
  queue w' !! g' = queue w !! g' ∧ heap w' !! r' = heap w !! r' ∧
  players w' !! p' = players w !! p' ∧ connections w' !! c' = connections w !! c'.

(** Every connection the library handed out has the listeners of its
    session. *)
Definition listened (w : world) : Prop :=
  ∀ c st, connections w !! c = Some st →
    ∃ p cl, listeners w !! p = Some cl ∧ cl_connection cl = c.

Definition is_create (x : effect) : bool :=
  match x with CreatePlayer _ => true | _ => false end.

Definition is_join (x : effect) : bool :=
  match x with JoinVoice _ _ => true | _ => false end.

(** The events that reach the new-session branch of the play command. *)
Definition starts_session (w : world) (e : event) : bool :=
  match e with
  | Incoming m (Info (Some _)) _ =>
      play_request (guild m) m && bool_decide (queue w !! guild m = None)
  | _ => false
  end.

(** From [w] to [w'] no player was created and no voice channel joined. *)
Definition quiet (w w' : world) : Prop :=
  ∃ l, log w' = log w ++ l ∧
       Forall (λ x, is_create x = false ∧ is_join x = false) l.

(** The queue the commands of a guild see: the songs of the stored
    session, none without a session. *)
Definition queue_of (g : guild_id) (w : world) : list song :=
  default [] (songs <$> session_of g w).

(** A second guild beside guild 1: guild 2 playing C, with player 3,
    session object 4 and connection 5. *)
Definition play_2 : event := played (play_msg 2 "c", song_C).

Definition two_guilds : world := run [play_A; play_2] initial.

(** ** Reading the text of a message *)

(** [s.split(" ")]: the pieces between single spaces; never an empty list. *)
Fixpoint split_space (s : string) : list string :=
  match s with
  | EmptyString => [EmptyString]
  | String c s' =>
      if Ascii.eqb c " "%char then EmptyString :: split_space s'
      else
        match split_space s' with
        | w :: ws => String c w :: ws
        | [] => [String c EmptyString]
        end
  end.

(** [s.split(/ +/)]: the pieces between runs of spaces. *)
Fixpoint split_runs (s : string) : list string :=
  match s with
  | EmptyString => [EmptyString]
  | String c s' =>
      if Ascii.eqb c " "%char then
        match s' with
        | String c' _ =>
            if Ascii.eqb c' " "%char then split_runs s' else EmptyString :: split_runs s'
        | EmptyString => EmptyString :: split_runs s'
        end
      else
        match split_runs s' with
        | w :: ws => String c w :: ws
        | [] => [String c EmptyString]
        end
  end.

(** The white space [trim] removes, among the ASCII characters: tab, line
    feed, vertical tab, form feed, carriage return and space. *)
Definition is_white (c : Ascii.ascii) : bool :=
  let n := Ascii.nat_of_ascii c in
  (n =? 9) || (n =? 10) || (n =? 11) || (n =? 12) || (n =? 13) || (n =? 32).

Fixpoint trim_start (s : string) : string :=
  match s with
  | EmptyString => EmptyString
  | String c s' => if is_white c then trim_start s' else s
  end.

Fixpoint trim_end (s : string) : string :=
  match s with
  | EmptyString => EmptyString
  | String c s' =>
      match trim_end s' with
      | EmptyString => if is_white c then EmptyString else String c EmptyString
      | t => String c t
      end
  end.

(** [s.trim()], for a string of ASCII characters. *)
Definition trim (s : string) : string := trim_end (trim_start s).

Definition lower (c : Ascii.ascii) : Ascii.ascii :=
  let n := Ascii.nat_of_ascii c in
  if (65 <=? n) && (n <=? 90) then Ascii.ascii_of_nat (n + 32) else c.

(** [s.toLowerCase()], for a string of ASCII characters. *)
Fixpoint toLowerCase (s : string) : string :=
  match s with
  | EmptyString => EmptyString
  | String c s' => String (lower c) (toLowerCase s')
  end.

(** [content.slice(prefix.length)], the prefix being ['!']. *)
Definition slice_prefix (s : string) : string :=
  match s with
  | EmptyString => EmptyString
  | String _ s' => s'
  end.

(** The chain of [if (command === '...')] of the listener. *)
Definition command_named (c : string) : command :=
  if String.eqb c "play" then CmdPlay
  else if String.eqb c "skip" then CmdSkip
  else if String.eqb c "stop" then CmdStop
  else if String.eqb c "pause" then CmdPause
  else if String.eqb c "resume" then CmdResume
  else if String.eqb c "queue" then CmdQueue
  else if String.eqb c "now" then CmdNow
  else CmdOther.

(** [args], then [command = args.shift().toLowerCase()] and, as the play
    command computes it, [search = args.join(' ')]. *)
Definition parse (content : string) : command * string :=
  match split_runs (trim (slice_prefix content)) with
  | [] => (CmdOther, EmptyString)
  | c :: args => (command_named (toLowerCase c), String.concat " " args)
  end.

(** The message a text stands for. *)
Definition received (content : string) (bot : bool) (g : guild_id) (ch : channel_id)
    (v : option channel_id) (connect speak : bool) : message :=
  Message (String.prefix "!" content) bot g ch v connect speak
    (parse content).1 (parse content).2.

(** ASCII characters that are not white space. *)
Fixpoint unspaced (s : string) : bool :=
  match s with
  | EmptyString => true
  | String c s' => negb (is_white c) && (Ascii.nat_of_ascii c <? 128) && unspaced s'
  end.

(** A word: not empty, of ASCII characters that are not white space. *)
Definition word (s : string) : bool := negb (String.eqb s EmptyString) && unspaced s.

Fixpoint white (s : string) : bool :=
  match s with
  | EmptyString => true
  | String c s' => is_white c && white s'
  end.

Fixpoint spaces (n : nat) : string :=
  match n with
  | 0 => EmptyString
  | S n' => String " "%char (spaces n')
  end.

(** Words, each after a run of [n + 1] spaces. *)
Fixpoint spaced (ws : list (nat * string)) : string :=
  match ws with
  | [] => EmptyString
  | (n, w) :: r => spaces (S n) +:+ w +:+ spaced r
  end.

Fixpoint no_space (s : string) : bool :=
  match s with
  | EmptyString => true
  | String c s' => negb (Ascii.eqb c " "%char) && no_space s'
  end.

(** The last character is there and is not white space. *)
Fixpoint ends_plain (s : string) : bool :=
  match s with
  | EmptyString => false
  | String c EmptyString => negb (is_white c)
  | String _ s' => ends_plain s'
  end.

(** ** The first script: [!play] only *)

Inductive simple_outcome :=
  | SimpleIgnored                 (* return without a reply *)
  | SimpleNoQuery                 (* 'Please provide a YouTube URL or search query!' *)
  | SimpleNoVoice                 (* 'Join a voice channel first!' *)
  | SimplePlay (query : string).  (* stream the query, join, play, 'Now playing: query' *)

(** [args.slice(1).join(" ")] with [args = message.content.split(" ")] *)
Definition simple_query (content : string) : string :=
  String.concat " " (tail (split_space content)).

(** The listener of the first script up to its first [await]. *)
Definition simple_messageCreate (content : string) (bot : bool) (v : option channel_id) :
    simple_outcome :=
  if negb (String.prefix "!play" content) || bot then SimpleIgnored
  else if String.eqb (simple_query content) EmptyString then SimpleNoQuery
  else match v with
       | None => SimpleNoVoice
       | Some _ => SimplePlay (simple_query content)
       end.

(** ** Proof tools *)

Ltac js_unfold :=
  unfold messageCreate, run_command, play_command, skip_command, stop_command,
    pause_command, resume_command, queue_command, now_command, setDescription, start_session, create_session, connect_session,
    emit_idle, emit_error, idle_listener, error_listener, playSong,
    createAudioPlayer, joinVoiceChannel, destroy, player_play, player_stop,
    player_pause, player_unpause, queue_get, queue_set, queue_delete,
    new_object, deref_opt, deref, update_object, defined, emit, fresh, try_catch,
    throw, modify, gets, mbind, M_bind, mret, M_ret.

(* Evaluates the field updates of a world given by its constructor. *)
Ltac world_unfold :=
  cbv [set_queue set_heap set_players set_connections set_listeners bump add_log
       queue heap players connections listeners next log].

Ltac frame_with lem :=
  unfold inv in *; simpl in *;
  first [ assumption | apply lem; assumption ].

Ltac paired_with frame keep :=
  unfold paired in *; simpl in *;
  first
    [ assumption
    | eapply frame; [| | | eassumption];
      [ lia
      | first [ by eauto | by apply keep | by apply (keep _ (λ _, [])) ]
      | first [ by eauto | by intros ? ? [_ ?]%lookup_delete_Some ] ] ].

Ltac active_with frame ins H :=
  first
    [ exact H
    | eapply frame; [| | | exact H];
      [ reflexivity
      | simpl; first [ done | by intros ? ? [_ ?]%lookup_delete_Some ]
      | intros ? ? _; unfold player_status_of; simpl;
        first [ done | apply ins; by destruct (default PIdle _) ] ] ].

Ltac agree_tac :=
  unfold agree; simpl;
  rewrite ?lookup_insert_ne, ?lookup_alter_ne, ?lookup_delete_ne by (done || lia);
  done.

Ltac entry_tac :=
  simpl; rewrite ?lookup_insert_ne, ?lookup_delete_ne by done; done.

Ltac listened_with same destroy :=
  first
    [ assumption
    | eapply same; [| | eassumption]; simpl; reflexivity
    | eapply destroy; [| | | eassumption]; simpl; [by eauto | reflexivity..] ].

Ltac quiet_tac :=
  unfold quiet; simpl;
  first
    [ by exists []; rewrite app_nil_r
    | eexists; split; [rewrite <- ?app_assoc; reflexivity | by repeat constructor] ].

(** ** Basic facts *)

Lemma accepted_spec (m : message) :
  accepted m = true ↔ prefixed m = true ∧ author_bot m = false.
Proof.
  unfold accepted. destruct (prefixed m), (author_bot m); simpl; intuition congruence.
Qed.

Lemma play_request_spec (g : guild_id) (m : message) :
  play_request g m = true ↔
  prefixed m = true ∧ author_bot m = false ∧ guild m = g ∧ cmd m = CmdPlay ∧
  is_Some (voice m) ∧ can_connect m = true ∧ can_speak m = true ∧ search m ≠ "".
Proof.
  unfold play_request. rewrite !andb_true_iff, !bool_decide_eq_true, accepted_spec.
  tauto.
Qed.

(** The append branch for whatever reference the listener read on arrival,
    also one that has left the store while the look-up was awaited: only
    the object behind it changes, by one song at its tail. *)
Lemma play_command_append (r : ref) (m : message) (sng : song) (ok : bool) (w : world) :
  play_request (guild m) m = true →
  play_command (Some r) m (Info (Some sng)) ok w =
  (Done (),
   add_log (Send (channel m) (AddedToQueue (title sng)))
     (set_heap (alter (λ s, with_songs (songs s ++ [sng]) s) r) w)).
Proof.
  intros (_ & _ & _ & _ & [vc Hv] & Hcc & Hcs & Hs)%play_request_spec.
  unfold play_command. rewrite Hv, Hcc, Hcs. simpl.
  by rewrite bool_decide_eq_false_2.
Qed.

(** A message that is not ignored runs its command on the session read
    from the store. *)
Lemma messageCreate_accepted (m : message) (res : resolution) (ok : bool) (w : world) :
  accepted m = true →
  messageCreate m res ok w = run_command (queue w !! guild m) m res ok w.
Proof.
  intros [Hp Hb]%accepted_spec. unfold messageCreate. by rewrite Hp, Hb.
Qed.

Lemma play_on_session (m : message) (sng : song) (ok : bool) (w : world) (r : ref) :
  play_request (guild m) m = true →
  queue w !! guild m = Some r →
  messageCreate m (Info (Some sng)) ok w =
  (Done (),
   add_log (Send (channel m) (AddedToQueue (title sng)))
     (set_heap (alter (λ s, with_songs (songs s ++ [sng]) s) r) w)).
Proof.
  intros Hreq Hq.
  pose proof Hreq as (Hp & Hb & _ & Hc & _)%play_request_spec.
  rewrite messageCreate_accepted by by apply accepted_spec.
  unfold run_command. rewrite Hq, Hc. by apply play_command_append.
Qed.

(** ** Starting a session: lemmas *)

Lemma start_session_joined (m : message) (vc : channel_id) (sng : song) (w : world) :
  start_session m vc sng true w = (Done (), started m vc sng w).
Proof.
  destruct w as [q h ps cs ls n lg]. js_unfold. simpl. rewrite lookup_insert_eq. simpl.
  rewrite lookup_alter_eq, lookup_insert_eq. simpl.
  unfold started. world_unfold. f_equal. f_equal.
  - by rewrite alter_insert_eq.
  - by rewrite insert_insert_eq.
  - by rewrite <- !app_assoc.
Qed.

Lemma start_session_join_failed (m : message) (vc : channel_id) (sng : song) (w : world) :
  start_session m vc sng false w = (Done (), not_started m vc sng w).
Proof.
  destruct w as [q h ps cs ls n lg]. js_unfold. simpl.
  unfold not_started. world_unfold. f_equal. f_equal.
  - by rewrite delete_insert_eq.
  - by rewrite <- !app_assoc.
Qed.

(** ** The parts of an error event *)

(** What an error event runs: nothing on an idle player; otherwise the
    error listener, followed by the idle event unless the listener threw
    or started the next song on the player. *)
Lemma emit_error_eq (p : player_id) (w : world) :
  emit_error p w =
  if bool_decide (player_status_of p w = PIdle) then (Done (), w)
  else
    match listeners w !! p with
    | Some cl =>
        match error_listener cl w with
        | (Done _, w1) =>
            if existsb (is_play_on p) (effects_since w w1) then (Done (), w1)
            else emit_idle p w1
        | (Throw e, w1) => (Throw e, w1)
        end
    | None => emit_idle p w
    end.
Proof.
  unfold emit_error, effects_since. cbv [mbind M_bind gets mret M_ret].
  case_bool_decide; [done |].
  destruct (listeners w !! p) as [cl |].
  - destruct (error_listener cl w) as [[[] | e] w1]; [| done].
    by destruct (existsb _ _).
  - by rewrite drop_all.
Qed.

Lemma emit_error_cases (p : player_id) (w : world) :
  (emit_error p w).2 = w ∨
  (listeners w !! p = None ∧ (emit_error p w).2 = (emit_idle p w).2) ∨
  ∃ cl, listeners w !! p = Some cl ∧
    ((emit_error p w).2 = (error_listener cl w).2 ∨
     (emit_error p w).2 = (emit_idle p (error_listener cl w).2).2).
Proof.
  rewrite emit_error_eq. case_bool_decide; [by left |].
  destruct (listeners w !! p) as [cl |] eqn:Hl.
  - right; right. exists cl. split; [done |].
    destruct (error_listener cl w) as [[[] | e] w1]; simpl; [| by left].
    destruct (existsb _ _); [by left | by right].
  - right; left. done.
Qed.

(** ** The invariant is kept by every event *)

Lemma inv_initial : inv initial.
Proof. split; simpl; intros; simplify_map_eq. Qed.

(** Changes that keep the handles of the objects already allocated. *)
Lemma inv5_frame q h h' cs ls n n' :
  n ≤ n' →
  (∀ r s, r < n → h !! r = Some s →
     ∃ s', h' !! r = Some s' ∧ connection s' = connection s ∧ player s' = player s) →
  inv5 q h cs ls n → inv5 q h' cs ls n'.
Proof.
  intros Hn Hh [Hst Hlv Hci Hsi Hfr]. split; try done.
  - intros g r Hq. destruct (Hst g r Hq) as (s & c & p & Hs & Hc & Hp & Hl & Hls).
    destruct (Hfr _ _ Hls) as (_ & Hr & _). simpl in Hr.
    destruct (Hh r s Hr Hs) as (s' & Hs' & Hc' & Hp').
    exists s', c, p. by rewrite Hc', Hp'.
  - intros p cl Hls. destruct (Hfr _ _ Hls) as (? & ? & ?). lia.
Qed.

Lemma inv5_alter_songs q h cs ls n (f : session → list song) (r : ref) :
  inv5 q h cs ls n → inv5 q (alter (λ s, with_songs (f s) s) r h) cs ls n.
Proof.
  apply inv5_frame; [done |]. intros r' s _ Hs.
  destruct (decide (r = r')) as [<- |].
  - rewrite lookup_alter_eq, Hs. simpl. eauto.
  - rewrite lookup_alter_ne by done. eauto.
Qed.

(** Destroying the live connection of a listener and deleting its guild
    from the store. *)
Lemma inv5_release q h cs ls n p cl :
  inv5 q h cs ls n →
  ls !! p = Some cl →
  cs !! cl_connection cl = Some Live →
  inv5 (delete (cl_guild cl) q) h (<[cl_connection cl := Destroyed]> cs) ls n.
Proof.
  intros [Hst Hlv Hci Hsi Hfr] Hp Hlive. destruct cl as [r0 c0 g0]. simpl in *.
  pose proof (Hlv _ _ Hp Hlive) as Hq. simpl in Hq.
  split; try done.
  - intros g r [Hg Hr]%lookup_delete_Some.
    destruct (Hst g r Hr) as (s & c & p' & Hs & Hc & Hp' & Hl & Hls).
    exists s, c, p'. repeat split; try done.
    rewrite lookup_insert_ne; [done |].
    intros <-. pose proof (Hci _ _ _ _ Hp Hls eq_refl) as <-.
    rewrite Hp in Hls. congruence.
  - intros p' [r' c' g'] Hp' Hl'. simpl in *.
    destruct (decide (c0 = c')) as [<- | Hne].
    { by rewrite lookup_insert_eq in Hl'. }
    rewrite lookup_insert_ne in Hl' by done.
    pose proof (Hlv _ _ Hp' Hl') as Hq'. simpl in Hq'.
    rewrite lookup_delete_ne; [done |].
    intros <-. rewrite Hq in Hq'. injection Hq' as <-.
    pose proof (Hsi _ _ _ _ Hp Hp' eq_refl) as <-.
    rewrite Hp in Hp'. congruence.
Qed.

(** Starting a session for a guild that has none. *)
Lemma inv5_started q h cs ls n g vc ch l :
  inv5 q h cs ls n →
  q !! g = None →
  inv5 (<[g := S n]> q) (<[S n := Session vc ch (Some (S (S n))) (Some n) l]> h)
    (<[S (S n) := Live]> cs) (<[n := Closure (S n) (S (S n)) g]> ls) (S (S (S n))).
Proof.
  intros [Hst Hlv Hci Hsi Hfr] Hg. split.
  - intros g' r. destruct (decide (g = g')) as [<- | Hne].
    + rewrite lookup_insert_eq. intros [= <-]. eexists _, _, _.
      rewrite !lookup_insert_eq. by simpl.
    + rewrite lookup_insert_ne by done. intros Hq.
      destruct (Hst g' r Hq) as (s & c & p & Hs & Hc & Hp & Hl & Hls).
      destruct (Hfr _ _ Hls) as (? & ? & ?). simpl in *.
      exists s, c, p. rewrite !lookup_insert_ne by lia. done.
  - intros p cl. destruct (decide (n = p)) as [<- | Hne].
    + rewrite lookup_insert_eq. intros [= <-]. simpl. by rewrite !lookup_insert_eq.
    + rewrite lookup_insert_ne by done. intros Hls.
      destruct (Hfr _ _ Hls) as (? & ? & ?).
      rewrite lookup_insert_ne by lia. intros Hl.
      pose proof (Hlv _ _ Hls Hl) as Hq.
      rewrite lookup_insert_ne; [done |]. intros Heq. rewrite <- Heq in Hq. by rewrite Hg in Hq.
  - intros p p' cl cl'.
    destruct (decide (n = p)) as [<- |], (decide (n = p')) as [<- |]; try done;
      rewrite ?lookup_insert_eq, ?lookup_insert_ne by done.
    + intros [= <-] Hls. destruct (Hfr _ _ Hls) as (? & ? & ?). simpl. lia.
    + intros Hls [= <-]. destruct (Hfr _ _ Hls) as (? & ? & ?). simpl. lia.
    + apply Hci.
  - intros p p' cl cl'.
    destruct (decide (n = p)) as [<- |], (decide (n = p')) as [<- |]; try done;
      rewrite ?lookup_insert_eq, ?lookup_insert_ne by done.
    + intros [= <-] Hls. destruct (Hfr _ _ Hls) as (? & ? & ?). simpl. lia.
    + intros Hls [= <-]. destruct (Hfr _ _ Hls) as (? & ? & ?). simpl. lia.
    + apply Hsi.
  - intros p cl. destruct (decide (n = p)) as [<- |].
    + rewrite lookup_insert_eq. intros [= <-]. simpl. lia.
    + rewrite lookup_insert_ne by done. intros Hls.
      destruct (Hfr _ _ Hls) as (? & ? & ?). lia.
Qed.

(** [playSong] touches the players and the log only. *)
Lemma playSong_frame (g : guild_id) (o : option song) (w : world) :
  ∃ ps lg, (playSong g o w).2 =
    World (queue w) (heap w) ps (connections w) (listeners w) (next w) lg.
Proof.
  destruct w as [q h ps cs ls n lg]. js_unfold. simpl.
  destruct o as [s |]; simpl; [| eauto].
  destruct (q !! g) as [r |]; simpl; [| eauto].
  destruct (h !! r) as [sq |]; simpl; [| eauto].
  destruct (player sq); simpl; eauto.
Qed.

Lemma inv_playSong (g : guild_id) (o : option song) (w : world) :
  inv w → inv (playSong g o w).2.
Proof.
  intros Hw. destruct (playSong_frame g o w) as (ps & lg & ->). exact Hw.
Qed.

Lemma inv_idle_listener (p : player_id) (cl : closure) (w : world) :
  listeners w !! p = Some cl → inv w → inv (idle_listener cl w).2.
Proof.
  intros Hl Hw. unfold idle_listener.
  unfold mbind at 1, M_bind at 1, update_object at 1, modify at 1.
  unfold mbind at 1, M_bind at 1, deref at 1, mbind at 1, M_bind at 1, gets at 1, defined.
  set (w1 := set_heap _ w).
  assert (Hw1 : inv w1) by (subst w1; frame_with inv5_alter_songs).
  destruct (heap w1 !! cl_session cl) as [s |]; [| exact Hw1].
  simpl. case_bool_decide.
  - by apply inv_playSong.
  - js_unfold. simpl.
    destruct (connections w !! cl_connection cl) as [[] |] eqn:Hc; simpl;
      try exact Hw1.
    subst w1. unfold inv in *. world_unfold.
    eapply inv5_release; [by apply inv5_alter_songs | done | done].
Qed.

Lemma inv_error_listener (cl : closure) (w : world) :
  inv w → inv (error_listener cl w).2.
Proof.
  intros Hw. unfold error_listener.
  unfold mbind at 1, M_bind at 1, emit at 1, modify at 1.
  unfold mbind at 1, M_bind at 1, update_object at 1, modify at 1.
  unfold mbind at 1, M_bind at 1, deref at 1, mbind at 1, M_bind at 1, gets at 1, defined.
  set (w1 := set_heap _ _).
  assert (Hw1 : inv w1) by (subst w1; frame_with inv5_alter_songs).
  destruct (heap w1 !! cl_session cl) as [s |]; [| exact Hw1].
  by apply inv_playSong.
Qed.

(** The error listener touches the session objects, the players and the
    log only. *)
Lemma error_listener_frame (cl : closure) (w : world) :
  ∃ h ps lg, (error_listener cl w).2 =
    World (queue w) h ps (connections w) (listeners w) (next w) lg.
Proof.
  unfold error_listener.
  unfold mbind at 1, M_bind at 1, emit at 1, modify at 1.
  unfold mbind at 1, M_bind at 1, update_object at 1, modify at 1.
  unfold mbind at 1, M_bind at 1, deref at 1, mbind at 1, M_bind at 1, gets at 1, defined.
  set (w1 := set_heap _ _).
  destruct (heap w1 !! cl_session cl) as [s |]; [| by eexists _, _, _].
  change (∃ h ps lg, (playSong (cl_guild cl) (head (songs s)) w1).2 =
            World (queue w) h ps (connections w) (listeners w) (next w) lg).
  destruct (playSong_frame (cl_guild cl) (head (songs s)) w1) as (ps & lg & ->).
  by eexists _, _, _.
Qed.

Lemma inv_play_command (m : message) (res : resolution) (ok : bool) (w : world) :
  inv w → inv (play_command (queue w !! guild m) m res ok w).2.
Proof.
  intros Hw. unfold play_command.
  destruct (voice m) as [vc |]; [| frame_with inv5_alter_songs].
  destruct (negb (can_connect m) || negb (can_speak m)); [frame_with inv5_alter_songs |].
  case_bool_decide; [frame_with inv5_alter_songs |].
  destruct res as [| | [sng |]]; try frame_with inv5_alter_songs.
  destruct (queue w !! guild m) as [r |] eqn:Hq; [frame_with inv5_alter_songs |].
  destruct ok.
  - rewrite start_session_joined. unfold inv, started. simpl.
    by apply inv5_started.
  - rewrite start_session_join_failed. unfold inv, not_started. simpl.
    rewrite delete_id by done.
    eapply inv5_frame; [| | exact Hw]; [lia |].
    intros r s Hr Hs. exists s. by rewrite lookup_insert_ne by lia.
Qed.

Lemma inv_stop_command (m : message) (w : world) :
  inv w → inv (stop_command (queue w !! guild m) m w).2.
Proof.
  intros Hw. unfold stop_command.
  destruct (queue w !! guild m) as [r |] eqn:Hq; [| frame_with inv5_alter_songs].
  destruct (inv_store _ _ _ _ _ Hw _ _ Hq) as (s & c & p & Hs & Hc & Hp & Hl & Hls).
  js_unfold. simpl. rewrite lookup_alter_eq, Hs. simpl. rewrite Hp, Hc. simpl.
  rewrite Hl. simpl. unfold inv. world_unfold.
  change (guild m) with (cl_guild (Closure r c (guild m))).
  change c with (cl_connection (Closure r c (guild m))) at 1.
  eapply inv5_release; [| exact Hls | done].
  by apply (inv5_alter_songs _ _ _ _ _ (λ _, [])).
Qed.

Lemma inv_messageCreate (m : message) (res : resolution) (ok : bool) (w : world) :
  inv w → inv (messageCreate m res ok w).2.
Proof.
  intros Hw. unfold messageCreate.
  destruct (negb (prefixed m) || author_bot m); [done |].
  unfold mbind, M_bind, queue_get, gets, run_command.
  destruct (cmd m).
  - by apply inv_play_command.
  - destruct (queue w !! guild m) as [r |]; [| frame_with inv5_alter_songs].
    unfold skip_command. js_unfold. simpl.
    destruct (heap w !! r) as [s |]; simpl; [| done].
    destruct (player s) as [p |]; simpl; [| done]. frame_with inv5_alter_songs.
  - by apply inv_stop_command.
  - destruct (queue w !! guild m) as [r |]; [| done].
    unfold pause_command. js_unfold. simpl.
    destruct (heap w !! r) as [s |]; simpl; [| done].
    destruct (player s) as [p |]; simpl; [| done]. frame_with inv5_alter_songs.
  - destruct (queue w !! guild m) as [r |]; [| done].
    unfold resume_command. js_unfold. simpl.
    destruct (heap w !! r) as [s |]; simpl; [| done].
    destruct (player s) as [p |]; simpl; [| done]. frame_with inv5_alter_songs.
  - destruct (queue w !! guild m) as [r |]; [| frame_with inv5_alter_songs].
    unfold queue_command. js_unfold. simpl.
    destruct (heap w !! r) as [s |]; simpl; [| done].
    case_bool_decide; [frame_with inv5_alter_songs |].
    destruct (_ <=? _); frame_with inv5_alter_songs.
  - destruct (queue w !! guild m) as [r |]; [| frame_with inv5_alter_songs].
    unfold now_command. js_unfold. simpl.
    destruct (heap w !! r) as [s |]; simpl; [| done].
    destruct (head (songs s)); frame_with inv5_alter_songs.
  - done.
Qed.

Lemma inv_emit_idle (p : player_id) (w : world) : inv w → inv (emit_idle p w).2.
Proof.
  intros Hw. unfold emit_idle. unfold mbind at 1, M_bind at 1, modify at 1.
  unfold mbind at 1, M_bind at 1, gets at 1.
  set (w1 := set_players _ w). assert (Hw1 : inv w1) by (subst w1; frame_with inv5_alter_songs).
  destruct (listeners w1 !! p) as [cl |] eqn:Hl; [| done].
  by apply (inv_idle_listener p).
Qed.

Lemma inv_after (e : event) (w : world) : inv w → inv (after e w).
Proof.
  intros Hw. unfold after. destruct e as [m res ok | p | p]; simpl.
  - by apply inv_messageCreate.
  - by apply inv_emit_idle.
  - destruct (emit_error_cases p w) as [-> | [[_ ->] | (cl & _ & [-> | ->])]];
      [done | by apply inv_emit_idle | by apply inv_error_listener |].
    by apply inv_emit_idle, inv_error_listener.
Qed.

Lemma reachable_inv (w : world) : reachable w → inv w.
Proof.
  induction 1 as [| e w _ IH]; [apply inv_initial | by apply inv_after].
Qed.

(** ** The players of stored sessions are not idle *)

Lemma active_frame (w w' : world) :
  listeners w' = listeners w →
  (∀ g r, queue w' !! g = Some r → queue w !! g = Some r) →
  (∀ p cl, listeners w !! p = Some cl →
     player_status_of p w ≠ PIdle → player_status_of p w' ≠ PIdle) →
  active w → active w'.
Proof.
  intros Hl Hq Hp H p cl Hcl Hst. rewrite Hl in Hcl.
  by apply (Hp p cl Hcl), (H p cl Hcl), Hq.
Qed.

Lemma status_insert (ps : gmap nat player_status) (p0 p : nat) (st : player_status) :
  (default PIdle (ps !! p0) ≠ PIdle → st ≠ PIdle) →
  default PIdle (ps !! p) ≠ PIdle →
  default PIdle (<[p0 := st]> ps !! p) ≠ PIdle.
Proof.
  intros Hst Hp. destruct (decide (p0 = p)) as [-> |].
  - rewrite lookup_insert_eq. simpl. by apply Hst.
  - by rewrite lookup_insert_ne.
Qed.

Lemma active_playSong (g : guild_id) (o : option song) (w : world) :
  active w → active (playSong g o w).2.
Proof.
  intros H. js_unfold. destruct o as [sng |]; simpl; [| exact H].
  destruct (queue w !! g) as [r |]; simpl; [| active_with active_frame status_insert H].
  destruct (heap w !! r) as [s |]; simpl; [| active_with active_frame status_insert H].
  destruct (player s); simpl; active_with active_frame status_insert H.
Qed.

Lemma active_error_listener (cl : closure) (w : world) :
  active w → active (error_listener cl w).2.
Proof.
  intros H. unfold error_listener.
  unfold mbind at 1, M_bind at 1, emit at 1, modify at 1.
  unfold mbind at 1, M_bind at 1, update_object at 1, modify at 1.
  unfold mbind at 1, M_bind at 1, deref at 1, mbind at 1, M_bind at 1, gets at 1, defined.
  set (w1 := set_heap _ _).
  assert (H1 : active w1) by (subst w1; active_with active_frame status_insert H).
  destruct (heap w1 !! cl_session cl) as [s |]; [| exact H1].
  by apply active_playSong.
Qed.

Lemma active_emit_idle (p : player_id) (w : world) :
  inv w → active w → active (emit_idle p w).2.
Proof.
  intros Hi H.
  unfold emit_idle. unfold mbind at 1, M_bind at 1, modify at 1.
  unfold mbind at 1, M_bind at 1, gets at 1.
  set (w1 := set_players _ w). change (listeners w1 !! p) with (listeners w !! p).
  destruct (listeners w !! p) as [[r c g] |] eqn:Hl.
  2: { intros q cl Hcl Hst. unfold player_status_of, w1. simpl.
       rewrite lookup_alter_ne by (intros ->; simpl in Hcl; congruence).
       by apply (H q cl). }
  (* a world where the session of p is not the stored one *)
  assert (Hbut : ∀ w', listeners w' = listeners w →
            (∀ g' r', queue w' !! g' = Some r' → queue w !! g' = Some r') →
            players w' = players w1 →
            queue w' !! g ≠ Some r → active w').
  { intros w' Hls Hqs Hps Hno q cl Hcl Hst. rewrite Hls in Hcl.
    assert (q ≠ p) by (intros ->; rewrite Hl in Hcl; by injection Hcl as <-).
    unfold player_status_of. rewrite Hps. unfold w1. simpl.
    rewrite lookup_alter_ne by done. apply (H q cl Hcl). by apply Hqs. }
  (* what the invariant gives when it is *)
  assert (Hstored : queue w !! g = Some r →
            ∃ s, heap w !! r = Some s ∧ player s = Some p ∧ connections w !! c = Some Live).
  { intros Hq. destruct (inv_store _ _ _ _ _ Hi _ _ Hq) as (s & c0 & p0 & Hs & _ & Hp & Hlv & Hl0).
    pose proof (inv_session_inj _ _ _ _ _ Hi _ _ _ _ Hl Hl0 eq_refl) as <-.
    rewrite Hl in Hl0. injection Hl0 as <-. by exists s. }
  unfold idle_listener.
  unfold mbind at 1, M_bind at 1, update_object at 1, modify at 1.
  unfold mbind at 1, M_bind at 1, deref at 1, mbind at 1, M_bind at 1, gets at 1, defined.
  cbn [cl_session cl_guild cl_connection]. set (w2 := set_heap _ w1).
  assert (Hh2 : heap w2 !! r = (λ s, with_songs (shift (songs s)) s) <$> heap w !! r)
    by (unfold w2; simpl; apply lookup_alter_eq).
  rewrite Hh2. destruct (heap w !! r) as [s |] eqn:Hs; simpl.
  2: { apply Hbut; try done. intros Hq. destruct (Hstored Hq) as (s & Hs' & _). congruence. }
  case_bool_decide as Hlen.
  - destruct (decide (queue w !! g = Some r)) as [Hq | Hq].
    + destruct (Hstored Hq) as (s' & Hs' & Hp & _).
      assert (s' = s) as -> by congruence.
      destruct (shift (songs s)) as [| b l] eqn:Hsh; [simpl in Hlen; lia |].
      clear Hh2. subst w2 w1. js_unfold. simpl. rewrite Hq. simpl.
      rewrite lookup_alter_eq, Hs. simpl. rewrite Hp. simpl.
      intros q cl Hcl Hst. unfold player_status_of. simpl.
      destruct (decide (q = p)) as [-> |]; [by rewrite lookup_insert_eq |].
      rewrite lookup_insert_ne, lookup_alter_ne by done. by apply (H q cl).
    + apply active_playSong. by apply Hbut.
  - js_unfold. simpl.
    destruct (connections w !! c) as [[] |] eqn:Hc; simpl.
    + apply Hbut; simpl; try done.
      * by intros ? ? [_ ?]%lookup_delete_Some.
      * by rewrite lookup_delete_eq.
    + apply Hbut; simpl; try done.
      intros Hq. destruct (Hstored Hq) as (? & _ & _ & ?). congruence.
    + apply Hbut; simpl; try done.
      intros Hq. destruct (Hstored Hq) as (? & _ & _ & ?). congruence.
Qed.

Lemma active_started (m : message) (vc : channel_id) (sng : song) (w : world) :
  inv w → active w → active (started m vc sng w).
Proof.
  intros Hi H q cl. unfold started, player_status_of. simpl.
  destruct (decide (next w = q)) as [<- |].
  - by rewrite !lookup_insert_eq.
  - rewrite (lookup_insert_ne (listeners w)), (lookup_insert_ne (players w)) by done.
    intros Hcl. destruct (inv_fresh _ _ _ _ _ Hi _ _ Hcl) as (? & ? & ?).
    destruct (decide (guild m = cl_guild cl)) as [<- |].
    + rewrite lookup_insert_eq. intros [= Heq]. lia.
    + rewrite lookup_insert_ne by done. by apply (H q cl).
Qed.

Lemma active_not_started (m : message) (vc : channel_id) (sng : song) (w : world) :
  inv w → active w → active (not_started m vc sng w).
Proof.
  intros Hi H q cl. unfold not_started, player_status_of. simpl.
  intros Hcl [_ Hst]%lookup_delete_Some.
  destruct (inv_fresh _ _ _ _ _ Hi _ _ Hcl) as (? & _).
  rewrite lookup_insert_ne by lia. by apply (H q cl).
Qed.

Lemma active_messageCreate (m : message) (res : resolution) (ok : bool) (w : world) :
  inv w → active w → active (messageCreate m res ok w).2.
Proof.
  intros Hi H. unfold messageCreate.
  destruct (negb (prefixed m) || author_bot m); [done |].
  unfold mbind, M_bind, queue_get, gets, run_command.
  destruct (cmd m); [| | | | | | | done].
  - unfold play_command. destruct (voice m); [| active_with active_frame status_insert H].
    destruct (negb (can_connect m) || negb (can_speak m));
      [active_with active_frame status_insert H |].
    case_bool_decide; [active_with active_frame status_insert H |].
    destruct res as [| | [sng |]]; try active_with active_frame status_insert H.
    destruct (queue w !! guild m); [active_with active_frame status_insert H |].
    destruct ok; [rewrite start_session_joined | rewrite start_session_join_failed].
    + by apply active_started.
    + by apply active_not_started.
  - unfold skip_command. js_unfold.
    destruct (queue w !! guild m) as [r |]; simpl;
      [| active_with active_frame status_insert H].
    destruct (heap w !! r) as [s |]; simpl; [| done].
    destruct (player s); simpl; [active_with active_frame status_insert H | done].
  - unfold stop_command. js_unfold.
    destruct (queue w !! guild m) as [r |]; simpl;
      [| active_with active_frame status_insert H].
    rewrite lookup_alter_eq.
    destruct (heap w !! r) as [s |]; simpl; [| active_with active_frame status_insert H].
    destruct (player s); simpl; [| active_with active_frame status_insert H].
    destruct (connection s) as [c |]; simpl; [| active_with active_frame status_insert H].
    destruct (connections w !! c) as [[] |]; simpl;
      active_with active_frame status_insert H.
  - unfold pause_command. js_unfold. destruct (queue w !! guild m) as [r |]; simpl; [| done].
    destruct (heap w !! r) as [s |]; simpl; [| done].
    destruct (player s); simpl; [active_with active_frame status_insert H | done].
  - unfold resume_command. js_unfold. destruct (queue w !! guild m) as [r |]; simpl; [| done].
    destruct (heap w !! r) as [s |]; simpl; [| done].
    destruct (player s); simpl; [active_with active_frame status_insert H | done].
  - unfold queue_command. js_unfold.
    destruct (queue w !! guild m) as [r |]; simpl;
      [| active_with active_frame status_insert H].
    destruct (heap w !! r) as [s |]; simpl; [| done].
    case_bool_decide; [active_with active_frame status_insert H |].
    destruct (_ <=? _); active_with active_frame status_insert H.
  - unfold now_command. js_unfold.
    destruct (queue w !! guild m) as [r |]; simpl;
      [| active_with active_frame status_insert H].
    destruct (heap w !! r) as [s |]; simpl; [| done].
    destruct (head (songs s)); active_with active_frame status_insert H.
Qed.

Lemma active_after (e : event) (w : world) : inv w → active w → active (after e w).
Proof.
  intros Hi H. unfold after. destruct e as [m res ok | p | p]; simpl.
  - by apply active_messageCreate.
  - by apply active_emit_idle.
  - destruct (emit_error_cases p w) as [-> | [[_ ->] | (cl & _ & [-> | ->])]];
      [done | by apply active_emit_idle | by apply active_error_listener |].
    apply active_emit_idle; [by apply inv_error_listener | by apply active_error_listener].
Qed.

(** In a world the bot can be in, the player of a stored session is not
    idle: it is playing, paused, or playing out after a [stop()]. *)
Lemma reachable_active (w : world) (g : guild_id) (s : session) (p : player_id) :
  reachable w →
  session_of g w = Some s →
  player s = Some p →
  player_status_of p w ≠ PIdle.
Proof.
  intros Hw Hs Hp.
  assert (H : active w).
  { clear Hs Hp. induction Hw as [| e w Hw IH]; [by intros q cl; simpl; rewrite lookup_empty |].
    apply active_after; [by apply reachable_inv | done]. }
  unfold session_of in Hs. destruct (queue w !! g) as [r |] eqn:Hq; [| done]. simpl in Hs.
  destruct (inv_store _ _ _ _ _ (reachable_inv w Hw) _ _ Hq)
    as (s' & c & p' & Hs' & _ & Hp' & _ & Hl).
  assert (s' = s) as -> by congruence. assert (p' = p) as -> by congruence.
  by apply (H p _ Hl).
Qed.

(** ** Both handles, also across awaits *)

Lemma paired3_frame q q' h h' n n' :
  n ≤ n' →
  (∀ r s, r < n → h !! r = Some s →
     ∃ s', h' !! r = Some s' ∧ connection s' = connection s ∧ player s' = player s) →
  (∀ g r, q' !! g = Some r → q !! g = Some r) →
  paired3 q h n → paired3 q' h' n'.
Proof.
  intros Hn Hh Hq Hp g r Hg. destruct (Hp g r (Hq g r Hg)) as (Hr & s & Hs & Hc & Hpl).
  split; [lia |]. destruct (Hh r s Hr Hs) as (s' & Hs' & Hc' & Hp').
  exists s'. by rewrite Hc', Hp'.
Qed.

Lemma alter_songs_keeps_handles (h : gmap nat session) (f : session → list song) (r0 : nat) n :
  ∀ r s, r < n → h !! r = Some s →
     ∃ s', alter (λ s, with_songs (f s) s) r0 h !! r = Some s' ∧ connection s' = connection s ∧ player s' = player s.
Proof.
  intros r s _ Hs. destruct (decide (r0 = r)) as [<- |].
  - rewrite lookup_alter_eq, Hs. simpl. eauto.
  - rewrite lookup_alter_ne by done. eauto.
Qed.

Lemma paired_playSong g o w : paired w → paired (playSong g o w).2.
Proof.
  intros Hw. destruct (playSong_frame g o w) as (ps & lg & ->). exact Hw.
Qed.

Lemma paired_stop sq m w : paired w → paired (stop_command sq m w).2.
Proof.
  intros Hw. unfold stop_command. js_unfold. destruct sq as [r|]; simpl; [| paired_with paired3_frame alter_songs_keeps_handles].
  rewrite lookup_alter_eq. destruct (heap w !! r) as [s|]; simpl; [| paired_with paired3_frame alter_songs_keeps_handles].
  destruct (player s); simpl; [| paired_with paired3_frame alter_songs_keeps_handles].
  destruct (connection s) as [c|]; simpl; [| paired_with paired3_frame alter_songs_keeps_handles].
  destruct (connections w !! c) as [[]|]; simpl; paired_with paired3_frame alter_songs_keeps_handles.
Qed.

Lemma paired3_started q h n g vc ch c p l :
  paired3 q h n →
  paired3 (<[g := S n]> q) (<[S n := Session vc ch (Some c) (Some p) l]> h) (S (S (S n))).
Proof.
  intros Hp g' r. destruct (decide (g = g')) as [<- | Hne].
  - rewrite lookup_insert_eq. intros [= <-]. split; [lia |].
    eexists. rewrite lookup_insert_eq. split; [done |]. simpl. eauto.
  - rewrite lookup_insert_ne by done. intros Hq.
    destruct (Hp g' r Hq) as (Hr & s & Hs & Hc & Hpl). split; [lia |].
    exists s. by rewrite lookup_insert_ne by lia.
Qed.

Lemma paired_play_command sq m res ok w : paired w → paired (play_command sq m res ok w).2.
Proof.
  intros Hw. unfold play_command.
  destruct (voice m) as [vc |]; [| paired_with paired3_frame alter_songs_keeps_handles].
  destruct (negb (can_connect m) || negb (can_speak m)); [paired_with paired3_frame alter_songs_keeps_handles |].
  case_bool_decide; [paired_with paired3_frame alter_songs_keeps_handles |].
  destruct res as [| | [sng |]]; try paired_with paired3_frame alter_songs_keeps_handles.
  destruct sq as [r |]; [paired_with paired3_frame alter_songs_keeps_handles |].
  destruct ok.
  - rewrite start_session_joined. unfold paired, started. simpl.
    by apply paired3_started.
  - rewrite start_session_join_failed. unfold paired, not_started. simpl.
    eapply paired3_frame; [| | | exact Hw]; [lia | |].
    + intros r s Hr Hs. exists s. by rewrite lookup_insert_ne by lia.
    + by intros ? ? [_ ?]%lookup_delete_Some.
Qed.

Lemma paired_run_command sq m res ok w : paired w → paired (run_command sq m res ok w).2.
Proof.
  intros Hw. unfold run_command. destruct (cmd m).
  - by apply paired_play_command.
  - unfold skip_command. js_unfold. destruct sq as [r |]; simpl; [| paired_with paired3_frame alter_songs_keeps_handles].
    destruct (heap w !! r) as [s |]; simpl; [| done].
    destruct (player s); simpl; [paired_with paired3_frame alter_songs_keeps_handles | done].
  - by apply paired_stop.
  - unfold pause_command. js_unfold. destruct sq as [r |]; simpl; [| done].
    destruct (heap w !! r) as [s |]; simpl; [| done].
    destruct (player s); simpl; [paired_with paired3_frame alter_songs_keeps_handles | done].
  - unfold resume_command. js_unfold. destruct sq as [r |]; simpl; [| done].
    destruct (heap w !! r) as [s |]; simpl; [| done].
    destruct (player s); simpl; [paired_with paired3_frame alter_songs_keeps_handles | done].
  - unfold queue_command. js_unfold. destruct sq as [r |]; simpl; [| paired_with paired3_frame alter_songs_keeps_handles].
    destruct (heap w !! r) as [s |]; simpl; [| done].
    case_bool_decide; [paired_with paired3_frame alter_songs_keeps_handles |].
    destruct (_ <=? _); paired_with paired3_frame alter_songs_keeps_handles.
  - unfold now_command. js_unfold. destruct sq as [r |]; simpl; [| paired_with paired3_frame alter_songs_keeps_handles].
    destruct (heap w !! r) as [s |]; simpl; [| done].
    destruct (head (songs s)); paired_with paired3_frame alter_songs_keeps_handles.
  - done.
Qed.

Lemma paired_emit_idle p w : paired w → paired (emit_idle p w).2.
Proof.
  intros Hw. unfold emit_idle. unfold mbind at 1, M_bind at 1, modify at 1.
  unfold mbind at 1, M_bind at 1, gets at 1.
  set (w1 := set_players _ w). assert (Hw1 : paired w1) by (subst w1; paired_with paired3_frame alter_songs_keeps_handles).
  destruct (listeners w1 !! p) as [cl |]; [| done]. clearbody w1. clear Hw w.
  unfold idle_listener.
  unfold mbind at 1, M_bind at 1, update_object at 1, modify at 1.
  unfold mbind at 1, M_bind at 1, deref at 1, mbind at 1, M_bind at 1, gets at 1, defined.
  set (w2 := set_heap _ w1). assert (Hw2 : paired w2) by (subst w2; paired_with paired3_frame alter_songs_keeps_handles).
  destruct (heap w2 !! cl_session cl) as [s |]; [| exact Hw2].
  simpl. case_bool_decide; [by apply paired_playSong |].
  js_unfold. simpl.
  destruct (connections w1 !! cl_connection cl) as [[] |]; simpl; try exact Hw2.
  subst w2. paired_with paired3_frame alter_songs_keeps_handles.
Qed.

Lemma paired_error_listener cl w : paired w → paired (error_listener cl w).2.
Proof.
  intros Hw. unfold error_listener.
  unfold mbind at 1, M_bind at 1, emit at 1, modify at 1.
  unfold mbind at 1, M_bind at 1, update_object at 1, modify at 1.
  unfold mbind at 1, M_bind at 1, deref at 1, mbind at 1, M_bind at 1, gets at 1, defined.
  set (w1 := set_heap _ _). assert (Hw1 : paired w1) by (subst w1; paired_with paired3_frame alter_songs_keeps_handles).
  destruct (heap w1 !! cl_session cl) as [s |]; [| exact Hw1].
  by apply paired_playSong.
Qed.

Lemma paired_after e w : paired w → paired (after e w).
Proof.
  intros Hw. unfold after. destruct e as [m res ok | p | p]; simpl.
  - unfold messageCreate. destruct (negb (prefixed m) || author_bot m); [done |].
    by apply paired_run_command.
  - by apply paired_emit_idle.
  - destruct (emit_error_cases p w) as [-> | [[_ ->] | (cl & _ & [-> | ->])]];
      [done | by apply paired_emit_idle | by apply paired_error_listener |].
    by apply paired_emit_idle, paired_error_listener.
Qed.

Lemma observable_paired w : observable w → paired w.
Proof.
  induction 1 as [| w w' _ IH Hstep]; [by intros g r; simpl; rewrite lookup_empty |].
  destruct Hstep; [by apply paired_after | by apply paired_play_command].
Qed.

Lemma reachable_observable w : reachable w → observable w.
Proof.
  induction 1; [constructor |]. eapply observable_step; [eassumption | constructor].
Qed.

(** ** The start-playback helper with no song *)

(** C10: whatever the world and the guild, [playSong] called with an absent
    song returns normally and leaves the world as it was: nothing is
    played, nothing is sent, nothing is thrown. *)
Theorem playSong_absent_song_noop (g : guild_id) (w : world) :
  playSong g None w = (Done (), w).
Proof. reflexivity. Qed.

(** ** Play on a guild that has a session *)

(** C7: a play command for a guild whose session [s] is in the store, with
    a resolved song, returns normally and
    - puts the song at the tail of the session's queue, the other fields of
      the session and every other session object being unchanged;
    - leaves the head of a non-empty queue where it was;
    - leaves the store, the players (so what is playing), the connections
      and the listeners unchanged;
    - has exactly one effect, the "added to queue" text in the channel of
      the message: no voice channel is joined, no player is created, no
      "now playing" text is sent. *)
Theorem play_existing_session_appends (m : message) (sng : song) (ok : bool)
    (w : world) (r : ref) (s : session) :
  play_request (guild m) m = true →
  queue w !! guild m = Some r →
  heap w !! r = Some s →
  ∃ w', messageCreate m (Info (Some sng)) ok w = (Done (), w') ∧
    heap w' !! r = Some (Session (voiceChannel s) (textChannel s) (connection s)
                           (player s) (songs s ++ [sng])) ∧
    (∀ r', r' ≠ r → heap w' !! r' = heap w !! r') ∧
    (songs s ≠ [] → head (songs s ++ [sng]) = head (songs s)) ∧
    queue w' = queue w ∧ players w' = players w ∧
    connections w' = connections w ∧ listeners w' = listeners w ∧
    log w' = log w ++ [Send (channel m) (AddedToQueue (title sng))].
Proof.
  intros Hreq Hq Hh. eexists. split; [by apply play_on_session |].
  simpl. repeat split; try done.
  - by rewrite lookup_alter_eq, Hh.
  - intros r' Hne. by rewrite lookup_alter_ne.
  - destruct (songs s); [done | reflexivity].
Qed.

Lemma play_existing_session_appends_witness :
  play_request 1 (play_msg 1 "b") = true ∧
  ∃ w', messageCreate (play_msg 1 "b") (Info (Some song_B)) true playing_A = (Done (), w') ∧
    heap w' !! 1 = Some (Session 9 7 (Some 2) (Some 0) ([song_A] ++ [song_B])) ∧
    (∀ r', r' ≠ 1 → heap w' !! r' = heap playing_A !! r') ∧
    (songs (Session 9 7 (Some 2) (Some 0) [song_A]) ≠ [] →
     head ([song_A] ++ [song_B]) = head [song_A]) ∧
    queue w' = queue playing_A ∧ players w' = players playing_A ∧
    connections w' = connections playing_A ∧ listeners w' = listeners playing_A ∧
    log w' = log playing_A ++ [Send 7 (AddedToQueue "B")].
Proof.
  split; [reflexivity |].
  apply (play_existing_session_appends (play_msg 1 "b") song_B true playing_A 1
           (Session 9 7 (Some 2) (Some 0) [song_A])); reflexivity.
Defined.

(** ** Pause and resume *)

(** C9: a pause or resume command
    - does nothing at all (no effect, no change, no exception) when the
      guild has no session;
    - whatever the world, leaves the store, every session object (so every
      queue), the connections and the listeners as they were;
    - changes no player's status except from playing to paused (pause) or
      from paused to playing (resume); an idle player stays idle. *)
Theorem pause_resume_frame (m : message) (res : resolution) (ok : bool) (w : world) :
  cmd m = CmdPause ∨ cmd m = CmdResume →
  let w' := (messageCreate m res ok w).2 in
  (queue w !! guild m = None → messageCreate m res ok w = (Done (), w)) ∧
  queue w' = queue w ∧ heap w' = heap w ∧
  connections w' = connections w ∧ listeners w' = listeners w ∧
  (∀ p, player_status_of p w' = player_status_of p w ∨
        (cmd m = CmdPause ∧ player_status_of p w = PPlaying ∧
         player_status_of p w' = PPaused) ∨
        (cmd m = CmdResume ∧ player_status_of p w = PPaused ∧
         player_status_of p w' = PPlaying)).
Proof.
  intros Hc. cbv zeta. js_unfold.
  destruct (negb (prefixed m) || author_bot m); [by simpl; repeat split; auto |].
  destruct (queue w !! guild m) as [r |] eqn:Hq.
  2: { destruct Hc as [-> | ->]; by simpl; repeat split; auto. }
  destruct Hc as [Hc | Hc]; rewrite Hc; simpl;
    (destruct (heap w !! r) as [s |]; [| by simpl; repeat split; auto]);
    (destruct (player s) as [p |]; [| by simpl; repeat split; auto]);
    simpl; repeat (split; [done |]);
    intros q; unfold player_status_of; simpl; rewrite lookup_insert;
    case_decide; subst; simpl; auto;
    destruct (players w !! q) as [[] |]; simpl; auto 10.
Qed.

Lemma pause_resume_frame_witness :
  (cmd (plain CmdPause 1 7) = CmdPause ∨ cmd (plain CmdPause 1 7) = CmdResume) ∧
  let w' := (messageCreate (plain CmdPause 1 7) LookupThrows false playing_AB).2 in
  (queue playing_AB !! 1 = None →
   messageCreate (plain CmdPause 1 7) LookupThrows false playing_AB = (Done (), playing_AB)) ∧
  queue w' = queue playing_AB ∧ heap w' = heap playing_AB ∧
  connections w' = connections playing_AB ∧ listeners w' = listeners playing_AB ∧
  (∀ p, player_status_of p w' = player_status_of p playing_AB ∨
        (cmd (plain CmdPause 1 7) = CmdPause ∧ player_status_of p playing_AB = PPlaying ∧
         player_status_of p w' = PPaused) ∨
        (cmd (plain CmdPause 1 7) = CmdResume ∧ player_status_of p playing_AB = PPaused ∧
         player_status_of p w' = PPlaying)).
Proof.
  split; [by left |].
  apply (pause_resume_frame (plain CmdPause 1 7) LookupThrows false playing_AB).
  by left.
Defined.

(** ** Sessions between two events *)

Lemma reachable_run (es : list event) (w : world) :
  reachable w → reachable (run es w).
Proof.
  revert w. induction es as [| e es IH]; intros w Hw; [done |].
  apply IH. by constructor.
Qed.

(** A session in the store has its object, its player, its live connection
    and the listeners made for it. *)
Lemma stored_session (w : world) (g : guild_id) (r : ref) :
  reachable w → queue w !! g = Some r →
  ∃ s c p, heap w !! r = Some s ∧ connection s = Some c ∧ player s = Some p ∧
           connections w !! c = Some Live ∧ listeners w !! p = Some (Closure r c g).
Proof. intros Hw%reachable_inv. apply Hw. Qed.

(** Inside the play command that creates it, the object is in the store
    with a player and no connection until [joinVoiceChannel] has returned;
    no other listener runs in between. *)
Lemma create_session_stores_unconnected (m : message) (vc : channel_id) (sng : song) (w : world) :
  ∃ w1, create_session m vc sng w = (Done (next w, S (next w)), w1) ∧
    session_of (guild m) w1 = Some (Session vc (channel m) None (Some (next w)) [sng]).
Proof.
  eexists. split; [reflexivity |]. unfold session_of. simpl.
  rewrite lookup_insert_eq. simpl. by rewrite lookup_insert_eq.
Qed.

(** C2: in every world the bot can be in when a listener starts or resumes
    (after any messages and player events, play listeners resuming after
    their awaits included), and for every guild with a session in the
    store, the session's connection handle is present exactly when its
    player handle is. *)
Theorem handles_present_together (w : world) (g : guild_id) (s : session) :
  observable w →
  session_of g w = Some s →
  (is_Some (connection s) ↔ is_Some (player s)).
Proof.
  intros Hw%observable_paired Hs. unfold session_of in Hs.
  destruct (queue w !! g) as [r |] eqn:Hq; [| done]. simpl in Hs.
  destruct (Hw g r Hq) as (_ & s' & Hs' & Hc & Hp).
  rewrite Hs in Hs'. by injection Hs' as <-.
Qed.

Lemma handles_present_together_witness :
  is_Some (connection (Session 9 7 (Some 2) (Some 0) [song_A; song_B])) ↔
  is_Some (player (Session 9 7 (Some 2) (Some 0) [song_A; song_B])).
Proof.
  apply (handles_present_together playing_AB 1).
  - apply reachable_observable.
    apply (reachable_run [play_A; play_B] initial reachable_initial).
  - reflexivity.
Defined.

(** ** Stop *)

Lemma stop_on_session (m : message) (res : resolution) (ok : bool) (w : world)
    (r : ref) (s : session) (c : conn_id) (p : player_id) :
  accepted m = true →
  cmd m = CmdStop →
  queue w !! guild m = Some r →
  heap w !! r = Some s →
  connection s = Some c →
  player s = Some p →
  connections w !! c = Some Live →
  messageCreate m res ok w = (Done (), stopped m r c p w).
Proof.
  intros Ha Hc Hq Hs Hcn Hp Hl. rewrite messageCreate_accepted by done.
  unfold run_command. rewrite Hc, Hq. unfold stop_command. js_unfold. simpl.
  rewrite lookup_alter_eq, Hs. simpl. rewrite Hp, Hcn. simpl. by rewrite Hl.
Qed.

(** C3: a stop command (in a world the bot can be in, from a message that is
    not ignored)
    - for a guild with no session only replies 'Nothing is playing.', the
      reply that signals NothingPlaying;
    - for a guild with a session returns normally, having emptied the
      session's queue, called [stop()] on its player, destroyed its live
      connection and deleted the guild from the store, the other guilds
      staying; it then sends 'Stopped and cleared queue.'. *)
Theorem stop_releases_session (m : message) (res : resolution) (ok : bool) (w : world) :
  reachable w →
  accepted m = true →
  cmd m = CmdStop →
  (queue w !! guild m = None →
   messageCreate m res ok w = (Done (), add_log (Reply NothingIsPlaying) w) ∧
   failure_of NothingIsPlaying = Some NothingPlaying) ∧
  (∀ r, queue w !! guild m = Some r →
   ∃ s c p w', heap w !! r = Some s ∧ connection s = Some c ∧ player s = Some p ∧
     connections w !! c = Some Live ∧
     messageCreate m res ok w = (Done (), w') ∧
     heap w' !! r = Some (Session (voiceChannel s) (textChannel s) (Some c) (Some p) []) ∧
     player_status_of p w' = stop_status (player_status_of p w) ∧
     connections w' !! c = Some Destroyed ∧
     queue w' !! guild m = None ∧
     (∀ g, g ≠ guild m → queue w' !! g = queue w !! g) ∧
     log w' = log w ++ [PlayerStop p; Destroy c; Send (channel m) StoppedCleared]).
Proof.
  intros Hw Ha Hc. split.
  - intros Hq. rewrite messageCreate_accepted by done.
    unfold run_command. by rewrite Hc, Hq.
  - intros r Hq.
    destruct (stored_session w (guild m) r Hw Hq) as (s & c & p & Hs & Hcn & Hp & Hl & _).
    exists s, c, p, (stopped m r c p w). repeat (split; [done |]).
    split; [by apply (stop_on_session m res ok w r s c p) |].
    split.
    { simpl. rewrite lookup_alter_eq, Hs. simpl. unfold with_songs. by rewrite Hcn, Hp. }
    split; [by unfold player_status_of at 1; simpl; rewrite lookup_insert_eq |].
    split; [by simpl; rewrite lookup_insert_eq |].
    split; [by simpl; rewrite lookup_delete_eq |].
    split; [by intros g Hg; simpl; rewrite lookup_delete_ne |].
    simpl. by rewrite <- !app_assoc.
Qed.

Lemma stop_releases_session_witness :
  (queue playing_AB !! 1 = None →
   messageCreate (plain CmdStop 1 7) LookupThrows false playing_AB =
     (Done (), add_log (Reply NothingIsPlaying) playing_AB) ∧
   failure_of NothingIsPlaying = Some NothingPlaying) ∧
  (∀ r, queue playing_AB !! 1 = Some r →
   ∃ s c p w', heap playing_AB !! r = Some s ∧ connection s = Some c ∧ player s = Some p ∧
     connections playing_AB !! c = Some Live ∧
     messageCreate (plain CmdStop 1 7) LookupThrows false playing_AB = (Done (), w') ∧
     heap w' !! r = Some (Session (voiceChannel s) (textChannel s) (Some c) (Some p) []) ∧
     player_status_of p w' = stop_status (player_status_of p playing_AB) ∧
     connections w' !! c = Some Destroyed ∧
     queue w' !! 1 = None ∧
     (∀ g, g ≠ 1 → queue w' !! g = queue playing_AB !! g) ∧
     log w' = log playing_AB ++ [PlayerStop p; Destroy c; Send 7 StoppedCleared]).
Proof.
  apply (stop_releases_session (plain CmdStop 1 7) LookupThrows false playing_AB).
  - apply (reachable_run [play_A; play_B] initial reachable_initial).
  - reflexivity.
  - reflexivity.
Defined.

(** ** The idle listener *)

(** An idle event for the player of a stored session with a second song:
    the head is dropped and the second song is started on the same player;
    store, connections and listeners stay. *)
Lemma idle_advances (w : world) (p : player_id) (r : ref) (c : conn_id) (g : guild_id)
    (s : session) (a b : song) (l : list song) :
  listeners w !! p = Some (Closure r c g) →
  queue w !! g = Some r →
  heap w !! r = Some s →
  player s = Some p →
  songs s = a :: b :: l →
  dispatch (Idle p) w =
  (Done (),
   World (queue w) (alter (λ s, with_songs (shift (songs s)) s) r (heap w))
     (<[p := PPlaying]> (alter (λ _, PIdle) p (players w)))
     (connections w) (listeners w) (next w)
     (log w ++ [OpenStream (url b); PlayerPlay p (url b);
                Send (textChannel s) (NowPlaying (title b))])).
Proof.
  intros Hl Hq Hs Hp Hsongs. simpl. js_unfold. simpl. rewrite Hl. simpl.
  rewrite lookup_alter_eq, Hs. simpl. rewrite Hsongs. simpl.
  rewrite Hq. simpl. rewrite lookup_alter_eq, Hs. simpl. rewrite Hp. simpl.
  world_unfold. by rewrite <- !app_assoc.
Qed.

(** The idle event of a player whose listeners hold a session object with
    at most one song and a live connection: the connection is destroyed
    and the guild deleted from the store. *)
Lemma idle_releases (w : world) (p : player_id) (r : ref) (c : conn_id) (g : guild_id)
    (s : session) :
  listeners w !! p = Some (Closure r c g) →
  heap w !! r = Some s →
  tail (songs s) = [] →
  connections w !! c = Some Live →
  emit_idle p w =
  (Done (),
   World (delete g (queue w)) (alter (λ s, with_songs (shift (songs s)) s) r (heap w))
     (alter (λ _, PIdle) p (players w))
     (<[c := Destroyed]> (connections w)) (listeners w) (next w)
     (log w ++ [Destroy c])).
Proof.
  intros Hl Hs Hsongs Hc. js_unfold. simpl. rewrite Hl. simpl.
  rewrite lookup_alter_eq, Hs. simpl. unfold shift. rewrite Hsongs. simpl. by rewrite Hc.
Qed.

(** ** Skip *)

(** C6: a skip command (in a world the bot can be in, from a message that is
    not ignored)
    - for a guild with no session only replies 'No song to skip.', a reply
      that signals NothingPlaying;
    - for a guild whose session holds at least two songs and whose player is
      playing or paused: calls [stop()] on the player and sends 'Skipped.',
      the queue being still whole and one idle event being owed; that idle
      event drops the head, starts the second song on the same player, and
      leaves the queue shorter by exactly one with no further idle event
      owed. *)
Theorem skip_advances_once (m : message) (res : resolution) (ok : bool) (w : world) :
  reachable w →
  accepted m = true →
  cmd m = CmdSkip →
  (queue w !! guild m = None →
   messageCreate m res ok w = (Done (), add_log (Reply NoSongToSkip) w) ∧
   failure_of NoSongToSkip = Some NothingPlaying) ∧
  (∀ s p a b l,
   session_of (guild m) w = Some s →
   player s = Some p →
   songs s = a :: b :: l →
   player_status_of p w = PPlaying ∨ player_status_of p w = PPaused →
   ∃ w1 w2 s2,
     messageCreate m res ok w = (Done (), w1) ∧
     log w1 = log w ++ [PlayerStop p; Send (channel m) Skipped] ∧
     session_of (guild m) w1 = Some s ∧
     idle_due p w1 = true ∧
     dispatch (Idle p) w1 = (Done (), w2) ∧
     session_of (guild m) w2 = Some s2 ∧
     songs s2 = b :: l ∧
     length (songs s2) + 1 = length (songs s) ∧
     log w2 = log w1 ++ [OpenStream (url b); PlayerPlay p (url b);
                         Send (textChannel s) (NowPlaying (title b))] ∧
     player_status_of p w2 = PPlaying ∧
     idle_due p w2 = false).
Proof.
  intros Hw Ha Hc. rewrite messageCreate_accepted by done.
  unfold run_command. rewrite Hc. split.
  - intros ->. done.
  - intros s p a b l Hs Hp Hsongs Hst. unfold session_of in Hs.
    destruct (queue w !! guild m) as [r |] eqn:Hq; [| done]. simpl in Hs.
    destruct (stored_session w (guild m) r Hw Hq)
      as (s' & c & p' & Hs' & Hcn & Hp' & Hl & Hls).
    assert (s' = s) as -> by congruence. assert (p' = p) as -> by congruence.
    set (w1 := add_log (Send (channel m) Skipped)
                 (set_players <[p := stop_status (player_status_of p w)]>
                    (add_log (PlayerStop p) w))).
    assert (Hskip : skip_command (Some r) m w = (Done (), w1)).
    { unfold skip_command. js_unfold. simpl. rewrite Hs. simpl. by rewrite Hp. }
    assert (Hdue : player_status_of p w1 = PStopping).
    { unfold player_status_of at 1. simpl. rewrite lookup_insert_eq. simpl.
      by destruct Hst as [-> | ->]. }
    pose proof (idle_advances w1 p r c (guild m) s a b l Hls Hq Hs Hp Hsongs) as Hidle.
    eexists w1, _, (with_songs (b :: l) s). split; [exact Hskip |].
    split; [by simpl; rewrite <- app_assoc |].
    split; [by unfold session_of; simpl; rewrite Hq |].
    split.
    { unfold idle_due. rewrite Hdue.
      change (listeners w1) with (listeners w).
      change (connections w1) with (connections w).
      rewrite Hls. simpl. by rewrite Hl. }
    split; [exact Hidle |].
    split.
    { unfold session_of. simpl. rewrite Hq. simpl.
      by rewrite lookup_alter_eq, Hs; simpl; rewrite Hsongs. }
    split; [done |]. split; [by rewrite Hsongs; simpl; lia |].
    split; [done |].
    assert (Hplaying : player_status_of p
      (World (queue w1) (alter (λ s, with_songs (shift (songs s)) s) r (heap w1))
         (<[p := PPlaying]> (alter (λ _, PIdle) p (players w1)))
         (connections w1) (listeners w1) (next w1)
         (log w1 ++ [OpenStream (url b); PlayerPlay p (url b);
                     Send (textChannel s) (NowPlaying (title b))])) = PPlaying).
    { unfold player_status_of. simpl. by rewrite lookup_insert_eq. }
    split; [exact Hplaying |]. unfold idle_due. by rewrite Hplaying.
Qed.

Lemma skip_advances_once_witness :
  ∃ w1 w2 s2,
    messageCreate (plain CmdSkip 1 7) LookupThrows false playing_AB = (Done (), w1) ∧
    log w1 = log playing_AB ++ [PlayerStop 0; Send 7 Skipped] ∧
    session_of 1 w1 = Some (Session 9 7 (Some 2) (Some 0) [song_A; song_B]) ∧
    idle_due 0 w1 = true ∧
    dispatch (Idle 0) w1 = (Done (), w2) ∧
    session_of 1 w2 = Some s2 ∧
    songs s2 = [song_B] ∧
    length (songs s2) + 1 = length [song_A; song_B] ∧
    log w2 = log w1 ++ [OpenStream (url song_B); PlayerPlay 0 (url song_B);
                        Send 7 (NowPlaying "B")] ∧
    player_status_of 0 w2 = PPlaying ∧
    idle_due 0 w2 = false.
Proof.
  apply (proj2 (skip_advances_once (plain CmdSkip 1 7) LookupThrows false playing_AB
                  (reachable_run [play_A; play_B] initial reachable_initial)
                  eq_refl eq_refl)
           (Session 9 7 (Some 2) (Some 0) [song_A; song_B]) 0 song_A song_B []).
  - reflexivity.
  - reflexivity.
  - reflexivity.
  - left. reflexivity.
Defined.

(** ** Queue order *)

(** The first play command of a guild. *)
Lemma play_starts_session (m : message) (sng : song) (w : world) (vc : channel_id) :
  play_request (guild m) m = true →
  voice m = Some vc →
  queue w !! guild m = None →
  messageCreate m (Info (Some sng)) true w = (Done (), started m vc sng w).
Proof.
  intros Hreq Hv Hq.
  pose proof Hreq as (Hp & Hb & _ & Hc & _ & Hcc & Hcs & Hs)%play_request_spec.
  rewrite messageCreate_accepted by by apply accepted_spec.
  unfold run_command, play_command. rewrite Hc, Hv, Hcc, Hcs, Hq. simpl.
  rewrite bool_decide_eq_false_2 by done. apply start_session_joined.
Qed.



(** The description the queue command builds lists the songs in order. *)
Lemma queue_description_lists (l : list song) : lists_in_order (queue_description l) l.
Proof.
  exists (imap queue_line l). split; [done |]. split; [by rewrite length_imap |].
  intros i s Hs. by rewrite list_lookup_imap, Hs.
Qed.




(** What the queue command sends for A, B, C. *)
Example queue_description_ABC :
  queue_description [song_A; song_B; song_C] =
  "`1.` A" +:+ newline +:+ "`2.` B" +:+ newline +:+ "`3.` C".
Proof. reflexivity. Qed.


(** ** Playback errors *)

(** The error listener on a session object with at most one song: the
    queue becomes empty and [playSong] is called with no song. *)
Lemma error_listener_drains (cl : closure) (w : world) (s : session) :
  heap w !! cl_session cl = Some s →
  tail (songs s) = [] →
  error_listener cl w =
  (Done (),
   set_heap (alter (λ s, with_songs (shift (songs s)) s) (cl_session cl))
     (add_log ConsoleError w)).
Proof.
  intros Hs Ha. unfold error_listener at 1.
  js_unfold. simpl. rewrite lookup_alter_eq, Hs. simpl. unfold shift. by rewrite Ha.
Qed.

(** An error event of an active player whose listeners hold a session
    object with at most one song and a live connection: the error listener
    empties the queue and starts nothing, so the player goes idle in the
    same call and the idle listener releases the session. *)
Lemma error_releases (w : world) (p : player_id) (r : ref) (c : conn_id) (g : guild_id)
    (s : session) :
  listeners w !! p = Some (Closure r c g) →
  heap w !! r = Some s →
  tail (songs s) = [] →
  connections w !! c = Some Live →
  player_status_of p w ≠ PIdle →
  dispatch (Error p) w =
  (Done (),
   World (delete g (queue w))
     (alter (λ s, with_songs (shift (songs s)) s) r
        (alter (λ s, with_songs (shift (songs s)) s) r (heap w)))
     (alter (λ _, PIdle) p (players w))
     (<[c := Destroyed]> (connections w)) (listeners w) (next w)
     (log w ++ [ConsoleError; Destroy c])).
Proof.
  intros Hl Hs Hsongs Hc Hst. simpl. rewrite emit_error_eq.
  rewrite bool_decide_eq_false_2 by done. rewrite Hl.
  rewrite (error_listener_drains _ w s) by done.
  unfold effects_since. simpl. rewrite drop_app_length. simpl.
  rewrite (idle_releases _ p r c g (with_songs (shift (songs s)) s)); simpl; try done.
  - by rewrite <- app_assoc.
  - by rewrite lookup_alter_eq, Hs.
  - unfold shift. by rewrite Hsongs.
Qed.

(** An error event for the active player of a stored session with a second
    song: the head is dropped and the second song is started on the same
    player, so that no idle event follows. *)
Lemma error_advances (w : world) (p : player_id) (r : ref) (c : conn_id) (g : guild_id)
    (s : session) (a b : song) (l : list song) :
  listeners w !! p = Some (Closure r c g) →
  queue w !! g = Some r →
  heap w !! r = Some s →
  player s = Some p →
  songs s = a :: b :: l →
  player_status_of p w ≠ PIdle →
  dispatch (Error p) w =
  (Done (),
   World (queue w) (alter (λ s, with_songs (shift (songs s)) s) r (heap w))
     (<[p := PPlaying]> (players w))
     (connections w) (listeners w) (next w)
     (log w ++ [ConsoleError; OpenStream (url b); PlayerPlay p (url b);
                Send (textChannel s) (NowPlaying (title b))])).
Proof.
  intros Hl Hq Hs Hp Hsongs Hst. simpl. rewrite emit_error_eq.
  rewrite bool_decide_eq_false_2 by done. rewrite Hl.
  assert (Hlis : error_listener (Closure r c g) w =
    (Done (),
     World (queue w) (alter (λ s, with_songs (shift (songs s)) s) r (heap w))
       (<[p := PPlaying]> (players w))
       (connections w) (listeners w) (next w)
       (log w ++ [ConsoleError; OpenStream (url b); PlayerPlay p (url b);
                  Send (textChannel s) (NowPlaying (title b))]))).
  { js_unfold. simpl. rewrite lookup_alter_eq, Hs. simpl. rewrite Hsongs. simpl.
    rewrite Hq. simpl. rewrite lookup_alter_eq, Hs. simpl. rewrite Hp. simpl.
    world_unfold. by rewrite <- !app_assoc. }
  rewrite Hlis. unfold effects_since. simpl. rewrite drop_app_length. simpl.
  by rewrite bool_decide_eq_true_2.
Qed.

(** C1: in a world the bot can be in, a playback error of the player of a
    stored session is handled as the idle event is, apart from the line
    on the console: both return normally
    and leave the same store, the same session objects, the same
    connections, the same listeners and the same status of every player.
    The head of the queue is dropped.  When no song is left the guild is
    removed from the store, the connection destroyed and the player idle;
    when a song is left it is started on the same player and the session
    stays. *)
Theorem error_advances_like_idle (w : world) (g : guild_id) (s : session)
    (p : player_id) (c : conn_id) :
  reachable w →
  session_of g w = Some s →
  player s = Some p →
  connection s = Some c →
  ∃ wi we,
    dispatch (Idle p) w = (Done (), wi) ∧
    dispatch (Error p) w = (Done (), we) ∧
    queue we = queue wi ∧ heap we = heap wi ∧ connections we = connections wi ∧
    listeners we = listeners wi ∧
    (∀ q, player_status_of q we = player_status_of q wi) ∧
    effects_since w we = ConsoleError :: effects_since w wi ∧
    queue_of g we = tail (songs s) ∧
    (tail (songs s) = [] →
     session_of g we = None ∧
     connections we !! c = Some Destroyed ∧
     player_status_of p we = PIdle ∧
     effects_since w we = [ConsoleError; Destroy c]) ∧
    (∀ b l, tail (songs s) = b :: l →
     session_of g we = Some (with_songs (b :: l) s) ∧
     connections we !! c = Some Live ∧
     player_status_of p we = PPlaying ∧
     effects_since w we =
       [ConsoleError; OpenStream (url b); PlayerPlay p (url b);
        Send (textChannel s) (NowPlaying (title b))]).
Proof.
  intros Hw Hs Hp Hc. pose proof (reachable_active w g s p Hw Hs Hp) as Hst.
  unfold session_of in Hs.
  destruct (queue w !! g) as [r |] eqn:Hq; [| done]. simpl in Hs.
  destruct (stored_session w g r Hw Hq) as (s' & c' & p' & Hs' & Hc' & Hp' & Hlv & Hl).
  assert (s' = s) as -> by congruence. assert (c' = c) as -> by congruence.
  assert (p' = p) as -> by congruence.
  destruct (tail (songs s)) as [| b l] eqn:Htl.
  - eexists _, _. split; [by apply (idle_releases w p r c g s) |].
    split; [by apply (error_releases w p r c g s) |].
    unfold queue_of, session_of, effects_since, player_status_of. simpl.
    rewrite lookup_delete_eq, lookup_insert_eq, !drop_app_length. simpl.
    repeat split; try done.
    + apply map_eq. intros i. destruct (decide (i = r)) as [-> |].
      * rewrite !lookup_alter_eq, Hs. simpl. unfold shift. by rewrite Htl.
      * by rewrite !lookup_alter_ne.
    + rewrite lookup_alter_eq. by destruct (players w !! p).
  - destruct (songs s) as [| a l'] eqn:Hsongs; [done |]. simpl in Htl. subst l'.
    eexists _, _. split; [by apply (idle_advances w p r c g s a b l) |].
    split; [by apply (error_advances w p r c g s a b l) |].
    unfold queue_of, session_of, effects_since, player_status_of. simpl.
    rewrite Hq, !drop_app_length. simpl. rewrite lookup_alter_eq, Hs. simpl.
    rewrite Hsongs, lookup_insert_eq. simpl.
    do 4 (split; [done |]).
    split.
    { intros q. rewrite !lookup_insert. case_decide; [done |].
      by rewrite lookup_alter_ne. }
    do 3 (split; [done |]).
    by intros b' l' [= <- <-].
Qed.

Lemma error_advances_like_idle_witness :
  ∃ wi we,
    dispatch (Idle 0) playing_A = (Done (), wi) ∧
    dispatch (Error 0) playing_A = (Done (), we) ∧
    queue we = queue wi ∧ heap we = heap wi ∧ connections we = connections wi ∧
    listeners we = listeners wi ∧
    (∀ q, player_status_of q we = player_status_of q wi) ∧
    effects_since playing_A we = ConsoleError :: effects_since playing_A wi ∧
    queue_of 1 we = [] ∧
    (tail [song_A] = [] →
     session_of 1 we = None ∧
     connections we !! 2 = Some Destroyed ∧
     player_status_of 0 we = PIdle ∧
     effects_since playing_A we = [ConsoleError; Destroy 2]) ∧
    (∀ b l, tail [song_A] = b :: l →
     session_of 1 we = Some (with_songs (b :: l) (Session 9 7 (Some 2) (Some 0) [song_A])) ∧
     connections we !! 2 = Some Live ∧
     player_status_of 0 we = PPlaying ∧
     effects_since playing_A we =
       [ConsoleError; OpenStream (url b); PlayerPlay 0 (url b);
        Send 7 (NowPlaying (title b))]).
Proof.
  apply (error_advances_like_idle playing_A 1 (Session 9 7 (Some 2) (Some 0) [song_A]) 0 2).
  - apply (reachable_run [play_A] initial reachable_initial).
  - reflexivity.
  - reflexivity.
  - reflexivity.
Defined.

(** ** Failures of the first play command *)



(** ** Stop, twice *)

(** C4: two stop commands in a row for the same guild, in a world the bot
    can be in.  Both return normally, and the second only replies 'Nothing
    is playing.', the reply that signals NothingPlaying.  No connection is
    destroyed more than once by the two calls, and they leave no playback
    event behind: a player that owes an idle event afterwards owed it
    before.  When the guild had a session, its connection is destroyed
    exactly once, by the first call; its player was told to stop, but with
    its connection destroyed it stays as it is and owes no idle event, so
    the idle listener, which would destroy the connection again, is not
    run. *)
Theorem stop_twice_releases_once (m1 m2 : message) (res1 res2 : resolution)
    (ok1 ok2 : bool) (w : world) :
  reachable w →
  accepted m1 = true → cmd m1 = CmdStop →
  accepted m2 = true → cmd m2 = CmdStop →
  guild m2 = guild m1 →
  let w1 := after (Incoming m1 res1 ok1) w in
  let w2 := after (Incoming m2 res2 ok2) w1 in
  (dispatch (Incoming m1 res1 ok1) w).1 = Done () ∧
  dispatch (Incoming m2 res2 ok2) w1 = (Done (), add_log (Reply NothingIsPlaying) w1) ∧
  failure_of NothingIsPlaying = Some NothingPlaying ∧
  (∀ c, count_occ effect_eq_dec (effects_since w w2) (Destroy c) ≤ 1) ∧
  (∀ q, idle_due q w2 = true → idle_due q w = true) ∧
  (∀ s p c,
   session_of (guild m1) w = Some s → player s = Some p → connection s = Some c →
   effects_since w w2 =
     [PlayerStop p; Destroy c; Send (channel m1) StoppedCleared; Reply NothingIsPlaying] ∧
   connections w2 !! c = Some Destroyed ∧
   idle_due p w2 = false).
Proof.
  intros Hw Ha1 Hc1 Ha2 Hc2 Hg. cbv zeta.
  assert (Hsecond : ∀ w', queue w' !! guild m1 = None →
            dispatch (Incoming m2 res2 ok2) w' = (Done (), add_log (Reply NothingIsPlaying) w')).
  { intros w' Hq'. simpl. rewrite messageCreate_accepted by done.
    unfold run_command. by rewrite Hc2, Hg, Hq'. }
  destruct (queue w !! guild m1) as [r |] eqn:Hq.
  - destruct (stored_session w (guild m1) r Hw Hq) as (s & c & p & Hs & Hc & Hp & Hlv & Hl).
    assert (Hfirst : dispatch (Incoming m1 res1 ok1) w = (Done (), stopped m1 r c p w))
      by by apply (stop_on_session m1 res1 ok1 w r s c p).
    assert (Hq1 : queue (stopped m1 r c p w) !! guild m1 = None)
      by (simpl; apply lookup_delete_eq).
    assert (Hw1 : after (Incoming m1 res1 ok1) w = stopped m1 r c p w)
      by (unfold after; by rewrite Hfirst).
    assert (Hw2 : after (Incoming m2 res2 ok2) (stopped m1 r c p w) =
                  add_log (Reply NothingIsPlaying) (stopped m1 r c p w))
      by (unfold after; by rewrite Hsecond).
    rewrite Hw1, Hw2, Hfirst, (Hsecond _ Hq1).
    assert (Hfx : effects_since w (add_log (Reply NothingIsPlaying) (stopped m1 r c p w)) =
              [PlayerStop p; Destroy c; Send (channel m1) StoppedCleared;
               Reply NothingIsPlaying]).
    { unfold effects_since. simpl. rewrite <- !app_assoc. by rewrite drop_app_length. }
    assert (Hdue : idle_due p (add_log (Reply NothingIsPlaying) (stopped m1 r c p w)) = false).
    { unfold idle_due. simpl. rewrite Hl. simpl. rewrite lookup_insert_eq.
      rewrite (bool_decide_eq_false_2 (Some Destroyed = Some Live)) by done.
      apply andb_false_r. }
    do 3 (split; [done |]).
    split.
    { intros c'. rewrite Hfx. simpl.
      destruct (decide_rel eq c c'); simpl; lia. }
    split.
    { intros q. destruct (decide (q = p)) as [-> | Hne]; [by rewrite Hdue |].
      unfold idle_due, player_status_of. simpl. rewrite lookup_insert_ne by done.
      intros [Hst Hcq]%andb_true_iff. rewrite Hst. simpl.
      destruct (listeners w !! q) as [cl |]; [| done].
      apply bool_decide_eq_true in Hcq. apply bool_decide_eq_true.
      destruct (decide (c = cl_connection cl)) as [Heq |].
      - rewrite <- Heq in Hcq. by rewrite lookup_insert_eq in Hcq.
      - by rewrite lookup_insert_ne in Hcq. }
    intros s' p' c'. unfold session_of. rewrite Hq. simpl. rewrite Hs.
    intros [= <-] Hp' Hc'.
    assert (p' = p) as -> by congruence. assert (c' = c) as -> by congruence.
    split; [done |]. split; [| done]. simpl. by rewrite lookup_insert_eq.
  - assert (Hfirst : dispatch (Incoming m1 res1 ok1) w =
                     (Done (), add_log (Reply NothingIsPlaying) w)).
    { simpl. rewrite messageCreate_accepted by done.
      unfold run_command. by rewrite Hc1, Hq. }
    assert (Hw1 : after (Incoming m1 res1 ok1) w = add_log (Reply NothingIsPlaying) w)
      by (unfold after; by rewrite Hfirst).
    assert (Hw2 : after (Incoming m2 res2 ok2) (add_log (Reply NothingIsPlaying) w) =
                  add_log (Reply NothingIsPlaying) (add_log (Reply NothingIsPlaying) w))
      by (unfold after; by rewrite Hsecond).
    rewrite Hw1, Hw2, Hfirst, (Hsecond (add_log (Reply NothingIsPlaying) w)) by done.
    do 3 (split; [done |]).
    split.
    { intros c'. unfold effects_since. simpl. rewrite <- app_assoc.
      rewrite drop_app_length. simpl. lia. }
    split; [done |].
    intros s p c. unfold session_of. by rewrite Hq.
Qed.

Lemma stop_twice_releases_once_witness :
  let w1 := after stop_1 playing_A in
  let w2 := after stop_1 w1 in
  (dispatch stop_1 playing_A).1 = Done () ∧
  dispatch stop_1 w1 = (Done (), add_log (Reply NothingIsPlaying) w1) ∧
  failure_of NothingIsPlaying = Some NothingPlaying ∧
  (∀ c, count_occ effect_eq_dec (effects_since playing_A w2) (Destroy c) ≤ 1) ∧
  (∀ q, idle_due q w2 = true → idle_due q playing_A = true) ∧
  (∀ s p c,
   session_of 1 playing_A = Some s → player s = Some p → connection s = Some c →
   effects_since playing_A w2 =
     [PlayerStop p; Destroy c; Send 7 StoppedCleared; Reply NothingIsPlaying] ∧
   connections w2 !! c = Some Destroyed ∧
   idle_due p w2 = false).
Proof.
  apply (stop_twice_releases_once (plain CmdStop 1 7) (plain CmdStop 1 7)
           LookupThrows LookupThrows false false playing_A).
  - apply (reachable_run [play_A] initial reachable_initial).
  - reflexivity.
  - reflexivity.
  - reflexivity.
  - reflexivity.
  - reflexivity.
Defined.

(** The run of C4 written out: guild 1 is playing A on player 0 with
    connection 2; after two stop commands connection 2 was destroyed once
    and player 0 owes no idle event. *)
Example stop_twice_on_playing_A :
  effects_since playing_A (run [stop_1; stop_1] playing_A) =
    [PlayerStop 0; Destroy 2; Send 7 StoppedCleared; Reply NothingIsPlaying] ∧
  count_occ effect_eq_dec (log (run [stop_1; stop_1] playing_A)) (Destroy 2) = 1 ∧
  player_status_of 0 (run [stop_1; stop_1] playing_A) = PStopping ∧
  idle_due 0 (run [stop_1; stop_1] playing_A) = false.
Proof. by vm_compute. Qed.

(** ** Guilds do not touch each other *)

Lemma agree_trans g' r' p' c' w1 w2 w3 :
  agree g' r' p' c' w1 w2 → agree g' r' p' c' w2 w3 → agree g' r' p' c' w1 w3.
Proof. intros (? & ? & ? & ?) (? & ? & ? & ?). repeat split; congruence. Qed.

(** What the invariant gives for the listeners of another guild. *)
Lemma foreign_listener (w : world) (g' r' p' c' p : nat) (cl : closure) :
  inv w →
  listeners w !! p' = Some (Closure r' c' g') →
  listeners w !! p = Some cl →
  cl_guild cl ≠ g' →
  p ≠ p' ∧ cl_session cl ≠ r' ∧ cl_connection cl ≠ c'.
Proof.
  intros Hi Hl' Hl Hg.
  assert (Hpp : p ≠ p') by (intros ->; rewrite Hl' in Hl; by injection Hl as <-).
  repeat split; [done | |].
  - intros Heq. by apply Hpp, (inv_session_inj _ _ _ _ _ Hi _ _ _ _ Hl Hl').
  - intros Heq. by apply Hpp, (inv_conn_inj _ _ _ _ _ Hi _ _ _ _ Hl Hl').
Qed.

Lemma playSong_agree (g g' r' p' c' : nat) (o : option song) (w : world) :
  inv w →
  listeners w !! p' = Some (Closure r' c' g') →
  g ≠ g' →
  agree g' r' p' c' w (playSong g o w).2.
Proof.
  intros Hi Hl' Hg. js_unfold. destruct o as [sng |]; simpl; [| agree_tac].
  destruct (queue w !! g) as [r |] eqn:Hq; simpl; [| agree_tac].
  destruct (inv_store _ _ _ _ _ Hi g r Hq) as (s & c & p & Hs & _ & Hp & _ & Hl).
  rewrite Hs. simpl. rewrite Hp. simpl.
  destruct (foreign_listener w g' r' p' c' p _ Hi Hl' Hl Hg) as (? & _ & _).
  agree_tac.
Qed.

Lemma idle_listener_agree (g' r' p' c' p : nat) (cl : closure) (w : world) :
  inv w →
  listeners w !! p' = Some (Closure r' c' g') →
  listeners w !! p = Some cl →
  cl_guild cl ≠ g' →
  agree g' r' p' c' w (idle_listener cl w).2.
Proof.
  intros Hi Hl' Hl Hg.
  destruct (foreign_listener w g' r' p' c' p cl Hi Hl' Hl Hg) as (? & ? & ?).
  unfold idle_listener.
  unfold mbind at 1, M_bind at 1, update_object at 1, modify at 1.
  unfold mbind at 1, M_bind at 1, deref at 1, mbind at 1, M_bind at 1, gets at 1, defined.
  set (w1 := set_heap _ w).
  assert (Hi1 : inv w1) by (subst w1; unfold inv in *; simpl; by apply inv5_alter_songs).
  assert (Ha1 : agree g' r' p' c' w w1) by (subst w1; agree_tac).
  destruct (heap w1 !! cl_session cl) as [s |]; [| done].
  simpl. case_bool_decide.
  - eapply agree_trans; [exact Ha1 |]. by apply playSong_agree.
  - js_unfold. simpl.
    destruct (connections w !! cl_connection cl) as [[] |]; simpl; subst w1; agree_tac.
Qed.

Lemma error_listener_agree (g' r' p' c' p : nat) (cl : closure) (w : world) :
  inv w →
  listeners w !! p' = Some (Closure r' c' g') →
  listeners w !! p = Some cl →
  cl_guild cl ≠ g' →
  agree g' r' p' c' w (error_listener cl w).2.
Proof.
  intros Hi Hl' Hl Hg.
  destruct (foreign_listener w g' r' p' c' p cl Hi Hl' Hl Hg) as (? & ? & ?).
  unfold error_listener.
  unfold mbind at 1, M_bind at 1, emit at 1, modify at 1.
  unfold mbind at 1, M_bind at 1, update_object at 1, modify at 1.
  unfold mbind at 1, M_bind at 1, deref at 1, mbind at 1, M_bind at 1, gets at 1, defined.
  set (w1 := set_heap _ _).
  assert (Hi1 : inv w1) by (subst w1; unfold inv in *; simpl; by apply inv5_alter_songs).
  assert (Ha1 : agree g' r' p' c' w w1) by (subst w1; agree_tac).
  destruct (heap w1 !! cl_session cl) as [s |]; [| done].
  eapply agree_trans; [exact Ha1 |]. by apply playSong_agree.
Qed.

Lemma messageCreate_agree (g' r' p' c' : nat) (m : message) (res : resolution)
    (ok : bool) (w : world) :
  inv w →
  listeners w !! p' = Some (Closure r' c' g') →
  guild m ≠ g' →
  agree g' r' p' c' w (messageCreate m res ok w).2.
Proof.
  intros Hi Hl' Hg.
  destruct (inv_fresh _ _ _ _ _ Hi _ _ Hl') as (? & ? & ?). simpl in *.
  unfold messageCreate. destruct (negb (prefixed m) || author_bot m); [done |].
  unfold mbind, M_bind, queue_get, gets, run_command.
  destruct (queue w !! guild m) as [r |] eqn:Hq.
  - destruct (inv_store _ _ _ _ _ Hi _ _ Hq) as (s & c & p & Hs & Hc & Hp & Hlv & Hl).
    destruct (foreign_listener w g' r' p' c' p _ Hi Hl' Hl Hg) as (? & ? & ?).
    simpl in *.
    destruct (cmd m); try done.
    + unfold play_command. destruct (voice m); [| agree_tac].
      destruct (negb (can_connect m) || negb (can_speak m)); [agree_tac |].
      case_bool_decide; [agree_tac |]. destruct res as [| | [|]]; agree_tac.
    + unfold skip_command. js_unfold. simpl. rewrite Hs. simpl. rewrite Hp. agree_tac.
    + unfold stop_command. js_unfold. simpl. rewrite lookup_alter_eq, Hs. simpl.
      rewrite Hp, Hc. simpl. rewrite Hlv. agree_tac.
    + unfold pause_command. js_unfold. simpl. rewrite Hs. simpl. rewrite Hp. agree_tac.
    + unfold resume_command. js_unfold. simpl. rewrite Hs. simpl. rewrite Hp. agree_tac.
    + unfold queue_command. js_unfold. simpl. rewrite Hs. simpl.
      case_bool_decide; [agree_tac |]. destruct (_ <=? _); agree_tac.
    + unfold now_command. js_unfold. simpl. rewrite Hs. simpl.
      destruct (head (songs s)); agree_tac.
  - destruct (cmd m); try done; try agree_tac.
    unfold play_command. destruct (voice m); [| agree_tac].
    destruct (negb (can_connect m) || negb (can_speak m)); [agree_tac |].
    case_bool_decide; [agree_tac |]. destruct res as [| | [sng |]]; try agree_tac.
    destruct ok; [rewrite start_session_joined | rewrite start_session_join_failed];
      unfold started, not_started; agree_tac.
Qed.

Lemma emit_idle_agree (g' r' p' c' p : nat) (w : world) :
  inv w →
  listeners w !! p' = Some (Closure r' c' g') →
  cl_guild <$> listeners w !! p ≠ Some g' →
  agree g' r' p' c' w (emit_idle p w).2.
Proof.
  intros Hi Hl' Hg.
  unfold emit_idle. unfold mbind at 1, M_bind at 1, modify at 1.
  unfold mbind at 1, M_bind at 1, gets at 1.
  set (w1 := set_players _ w).
  assert (Hpp : p ≠ p').
  { intros ->. rewrite Hl' in Hg. simpl in Hg. done. }
  assert (Ha1 : agree g' r' p' c' w w1) by (subst w1; agree_tac).
  change (listeners w1 !! p) with (listeners w !! p).
  destruct (listeners w !! p) as [cl |] eqn:Hl; [| done]. simpl in Hg.
  eapply agree_trans; [exact Ha1 |].
  apply (idle_listener_agree g' r' p' c' p); try done. congruence.
Qed.

Lemma event_agree (g' r' p' c' : nat) (e : event) (w : world) :
  inv w →
  listeners w !! p' = Some (Closure r' c' g') →
  event_guild w e ≠ Some g' →
  agree g' r' p' c' w (after e w).
Proof.
  intros Hi Hl' Hg. unfold after. destruct e as [m res ok | p | p]; simpl in *.
  - apply messageCreate_agree; [done.. |]. congruence.
  - by apply emit_idle_agree.
  - destruct (emit_error_cases p w) as [-> | [[_ ->] | (cl & Hl & Hcase)]];
      [done | by apply emit_idle_agree |].
    assert (Hne : cl_guild cl ≠ g') by (rewrite Hl in Hg; simpl in Hg; congruence).
    pose proof (error_listener_agree g' r' p' c' p cl w Hi Hl' Hl Hne) as Ha.
    destruct Hcase as [-> | ->]; [done |].
    eapply agree_trans; [exact Ha |].
    destruct (error_listener_frame cl w) as (h1 & ps1 & lg1 & Hw1).
    apply emit_idle_agree; [by apply inv_error_listener | |]; by rewrite Hw1.
Qed.

Lemma playSong_keeps_entries (g g' : guild_id) (o : option song) (w : world) :
  queue (playSong g o w).2 !! g' = queue w !! g'.
Proof. by destruct (playSong_frame g o w) as (ps & lg & ->). Qed.

Lemma run_command_keeps_other_entries (g' : guild_id) (sq : option ref) (m : message)
    (res : resolution) (ok : bool) (w : world) :
  guild m ≠ g' →
  queue (run_command sq m res ok w).2 !! g' = queue w !! g'.
Proof.
  intros Hg. unfold run_command. destruct (cmd m); [| | | | | | | done].
  - unfold play_command. destruct (voice m); [| done].
    destruct (negb (can_connect m) || negb (can_speak m)); [done |].
    case_bool_decide; [done |]. destruct res as [| | [sng |]]; try done.
    destruct sq; [done |].
    destruct ok; [rewrite start_session_joined | rewrite start_session_join_failed];
      unfold started, not_started; entry_tac.
  - unfold skip_command. js_unfold. destruct sq as [r |]; simpl; [| done].
    destruct (heap w !! r) as [s |]; simpl; [| done].
    by destruct (player s).
  - unfold stop_command. js_unfold. destruct sq as [r |]; simpl; [| done].
    rewrite lookup_alter_eq. destruct (heap w !! r) as [s |]; simpl; [| done].
    destruct (player s); simpl; [| done].
    destruct (connection s) as [c |]; simpl; [| done].
    destruct (connections w !! c) as [[] |]; entry_tac.
  - unfold pause_command. js_unfold. destruct sq as [r |]; simpl; [| done].
    destruct (heap w !! r) as [s |]; simpl; [| done].
    by destruct (player s).
  - unfold resume_command. js_unfold. destruct sq as [r |]; simpl; [| done].
    destruct (heap w !! r) as [s |]; simpl; [| done].
    by destruct (player s).
  - unfold queue_command. js_unfold. destruct sq as [r |]; simpl; [| done].
    destruct (heap w !! r) as [s |]; simpl; [| done].
    case_bool_decide; [done |]. by destruct (_ <=? _).
  - unfold now_command. js_unfold. destruct sq as [r |]; simpl; [| done].
    destruct (heap w !! r) as [s |]; simpl; [| done].
    by destruct (head (songs s)).
Qed.

Lemma emit_idle_keeps_other_entries (g' : guild_id) (p : player_id) (w : world) :
  cl_guild <$> listeners w !! p ≠ Some g' →
  queue (emit_idle p w).2 !! g' = queue w !! g'.
Proof.
  intros Hg.
  unfold emit_idle. unfold mbind at 1, M_bind at 1, modify at 1.
  unfold mbind at 1, M_bind at 1, gets at 1.
  set (w1 := set_players _ w). change (listeners w1 !! p) with (listeners w !! p).
  destruct (listeners w !! p) as [cl |]; [| done]. simpl in Hg.
  assert (Hne : cl_guild cl ≠ g') by congruence.
  change (queue w !! g') with (queue w1 !! g'). clearbody w1. clear w Hg.
  unfold idle_listener.
  unfold mbind at 1, M_bind at 1, update_object at 1, modify at 1.
  unfold mbind at 1, M_bind at 1, deref at 1, mbind at 1, M_bind at 1, gets at 1, defined.
  set (w2 := set_heap _ w1).
  destruct (heap w2 !! cl_session cl) as [s |]; [| done].
  simpl. case_bool_decide; [by rewrite playSong_keeps_entries |].
  js_unfold. simpl.
  destruct (connections w1 !! cl_connection cl) as [[] |]; entry_tac.
Qed.

Lemma event_keeps_other_entries (g' : guild_id) (e : event) (w : world) :
  event_guild w e ≠ Some g' →
  queue (after e w) !! g' = queue w !! g'.
Proof.
  intros Hg. unfold after. destruct e as [m res ok | p | p]; simpl in *.
  - unfold messageCreate. destruct (negb (prefixed m) || author_bot m); [done |].
    apply run_command_keeps_other_entries. congruence.
  - by apply emit_idle_keeps_other_entries.
  - destruct (emit_error_cases p w) as [-> | [[_ ->] | (cl & Hl & Hcase)]];
      [done | by apply emit_idle_keeps_other_entries |].
    destruct (error_listener_frame cl w) as (h1 & ps1 & lg1 & Hw1).
    destruct Hcase as [-> | ->]; [by rewrite Hw1 |].
    rewrite emit_idle_keeps_other_entries; by rewrite Hw1.
Qed.

(** X1: in every reachable world an event of one guild (a message, or an
    idle or error event of a player whose listeners were made for that
    guild) leaves every other guild as it was: its store entry, its
    session object (so its queue), the status of its player and the
    status of its connection. *)
Theorem other_guilds_untouched (e : event) (w : world) (g' : guild_id) :
  reachable w →
  event_guild w e ≠ Some g' →
  session_of g' (after e w) = session_of g' w ∧
  ∀ s p c, session_of g' w = Some s → player s = Some p → connection s = Some c →
    player_status_of p (after e w) = player_status_of p w ∧
    connections (after e w) !! c = connections w !! c.
Proof.
  intros Hw Hg. pose proof (reachable_inv w Hw) as Hi.
  pose proof (event_keeps_other_entries g' e w Hg) as Hq.
  unfold session_of. rewrite Hq.
  destruct (queue w !! g') as [r' |] eqn:Hq'; [| done]. simpl.
  destruct (inv_store _ _ _ _ _ Hi _ _ Hq') as (s' & c' & p' & Hs' & Hc' & Hp' & _ & Hl').
  destruct (event_agree g' r' p' c' e w Hi Hl' Hg) as (_ & Hh & Hps & Hcs).
  split; [done |]. intros s p c Hs Hp Hc.
  assert (s' = s) as -> by congruence.
  assert (p' = p) as -> by congruence. assert (c' = c) as -> by congruence.
  unfold player_status_of. by rewrite Hps, Hcs.
Qed.

Lemma other_guilds_untouched_witness :
  session_of 2 (after stop_1 two_guilds) = session_of 2 two_guilds ∧
  ∀ s p c, session_of 2 two_guilds = Some s → player s = Some p → connection s = Some c →
    player_status_of p (after stop_1 two_guilds) = player_status_of p two_guilds ∧
    connections (after stop_1 two_guilds) !! c = connections two_guilds !! c.
Proof.
  apply (other_guilds_untouched stop_1 two_guilds 2).
  - apply (reachable_run [play_A; play_2] initial reachable_initial).
  - simpl. discriminate.
Defined.

(** X2: in every reachable world two guilds with a session never share the
    session object, the player or the connection. *)
Theorem stored_sessions_disjoint (w : world) (g g' : guild_id) (s s' : session)
    (r r' : ref) :
  reachable w →
  g ≠ g' →
  queue w !! g = Some r → heap w !! r = Some s →
  queue w !! g' = Some r' → heap w !! r' = Some s' →
  r ≠ r' ∧ player s ≠ player s' ∧ connection s ≠ connection s'.
Proof.
  intros Hw Hne Hq Hs Hq' Hs'.
  pose proof (reachable_inv w Hw) as Hi.
  destruct (stored_session w g r Hw Hq) as (s0 & c & p & Hs0 & Hc & Hp & _ & Hl).
  destruct (stored_session w g' r' Hw Hq') as (s0' & c' & p' & Hs0' & Hc' & Hp' & _ & Hl').
  assert (s0 = s) as -> by congruence. assert (s0' = s') as -> by congruence.
  assert (Hpp : p ≠ p') by (intros ->; congruence).
  rewrite Hc, Hc', Hp, Hp'. repeat split.
  - intros <-. by apply Hpp, (inv_session_inj _ _ _ _ _ Hi _ _ _ _ Hl Hl').
  - congruence.
  - intros [= <-]. by apply Hpp, (inv_conn_inj _ _ _ _ _ Hi _ _ _ _ Hl Hl').
Qed.

Lemma stored_sessions_disjoint_witness :
  1 ≠ 4 ∧
  player (Session 9 7 (Some 2) (Some 0) [song_A]) ≠
    player (Session 9 7 (Some 5) (Some 3) [song_C]) ∧
  connection (Session 9 7 (Some 2) (Some 0) [song_A]) ≠
    connection (Session 9 7 (Some 5) (Some 3) [song_C]).
Proof.
  apply (stored_sessions_disjoint two_guilds 1 2).
  - apply (reachable_run [play_A; play_2] initial reachable_initial).
  - lia.
  - reflexivity.
  - reflexivity.
  - reflexivity.
  - reflexivity.
Defined.

(** ** Connections and their sessions *)

Lemma listened_same (w w' : world) :
  connections w' = connections w → listeners w' = listeners w →
  listened w → listened w'.
Proof. intros Hc Hl H c st. rewrite Hc, Hl. apply H. Qed.

Lemma listened_destroy (w w' : world) (c : conn_id) :
  is_Some (connections w !! c) →
  connections w' = <[c := Destroyed]> (connections w) → listeners w' = listeners w →
  listened w → listened w'.
Proof.
  intros [st0 Hc0] Hc Hl H c' st. rewrite Hc, Hl.
  destruct (decide (c = c')) as [<- |].
  - intros _. by apply (H c st0).
  - rewrite lookup_insert_ne by done. apply H.
Qed.

Lemma listened_playSong (g : guild_id) (o : option song) (w : world) :
  listened w → listened (playSong g o w).2.
Proof.
  intros H. destruct (playSong_frame g o w) as (ps & lg & ->).
  by eapply listened_same; [| | exact H].
Qed.

Lemma listened_run_command (sq : option ref) (m : message) (res : resolution)
    (ok : bool) (w : world) :
  inv w → listened w → listened (run_command sq m res ok w).2.
Proof.
  intros Hi H. unfold run_command. destruct (cmd m); [| | | | | | | done].
  - unfold play_command. destruct (voice m); [| listened_with listened_same listened_destroy].
    destruct (negb (can_connect m) || negb (can_speak m)); [listened_with listened_same listened_destroy |].
    case_bool_decide; [listened_with listened_same listened_destroy |]. destruct res as [| | [sng |]]; try listened_with listened_same listened_destroy.
    destruct sq; [listened_with listened_same listened_destroy |].
    destruct ok; [rewrite start_session_joined | rewrite start_session_join_failed];
      [| listened_with listened_same listened_destroy].
    intros c st. unfold started. simpl.
    destruct (decide (S (S (next w)) = c)) as [<- | Hne].
    + intros _. eexists _, _. by rewrite lookup_insert_eq.
    + rewrite lookup_insert_ne by done. intros Hc.
      destruct (H c st Hc) as (p & cl & Hl & Hcl).
      destruct (inv_fresh _ _ _ _ _ Hi _ _ Hl) as (? & _).
      exists p, cl. by rewrite lookup_insert_ne by lia.
  - unfold skip_command. js_unfold. destruct sq as [r |]; simpl; [| listened_with listened_same listened_destroy].
    destruct (heap w !! r) as [s |]; simpl; [| done].
    destruct (player s); simpl; [listened_with listened_same listened_destroy | done].
  - unfold stop_command. js_unfold. destruct sq as [r |]; simpl; [| listened_with listened_same listened_destroy].
    rewrite lookup_alter_eq. destruct (heap w !! r) as [s |]; simpl; [| listened_with listened_same listened_destroy].
    destruct (player s); simpl; [| listened_with listened_same listened_destroy].
    destruct (connection s) as [c |]; simpl; [| listened_with listened_same listened_destroy].
    destruct (connections w !! c) as [[] |] eqn:Hc; simpl; listened_with listened_same listened_destroy.
  - unfold pause_command. js_unfold. destruct sq as [r |]; simpl; [| done].
    destruct (heap w !! r) as [s |]; simpl; [| done].
    destruct (player s); simpl; [listened_with listened_same listened_destroy | done].
  - unfold resume_command. js_unfold. destruct sq as [r |]; simpl; [| done].
    destruct (heap w !! r) as [s |]; simpl; [| done].
    destruct (player s); simpl; [listened_with listened_same listened_destroy | done].
  - unfold queue_command. js_unfold. destruct sq as [r |]; simpl; [| listened_with listened_same listened_destroy].
    destruct (heap w !! r) as [s |]; simpl; [| done].
    case_bool_decide; [listened_with listened_same listened_destroy |].
    destruct (_ <=? _); listened_with listened_same listened_destroy.
  - unfold now_command. js_unfold. destruct sq as [r |]; simpl; [| listened_with listened_same listened_destroy].
    destruct (heap w !! r) as [s |]; simpl; [| done].
    destruct (head (songs s)); listened_with listened_same listened_destroy.
Qed.

Lemma listened_emit_idle (p : player_id) (w : world) :
  listened w → listened (emit_idle p w).2.
Proof.
  intros H. unfold emit_idle. unfold mbind at 1, M_bind at 1, modify at 1.
  unfold mbind at 1, M_bind at 1, gets at 1.
  set (w1 := set_players _ w). assert (H1 : listened w1) by (subst w1; listened_with listened_same listened_destroy).
  destruct (listeners w1 !! p) as [cl |]; [| done]. clearbody w1. clear H w.
  unfold idle_listener.
  unfold mbind at 1, M_bind at 1, update_object at 1, modify at 1.
  unfold mbind at 1, M_bind at 1, deref at 1, mbind at 1, M_bind at 1, gets at 1, defined.
  set (w2 := set_heap _ w1). assert (H2 : listened w2) by (subst w2; listened_with listened_same listened_destroy).
  destruct (heap w2 !! cl_session cl) as [s |]; [| done].
  simpl. case_bool_decide; [by apply listened_playSong |].
  js_unfold. simpl.
  destruct (connections w1 !! cl_connection cl) as [[] |] eqn:Hc; simpl;
    subst w2; listened_with listened_same listened_destroy.
Qed.

Lemma listened_error_listener (cl : closure) (w : world) :
  listened w → listened (error_listener cl w).2.
Proof.
  intros H. destruct (error_listener_frame cl w) as (h & ps & lg & ->).
  by eapply listened_same; [| | exact H].
Qed.

Lemma listened_after (e : event) (w : world) :
  inv w → listened w → listened (after e w).
Proof.
  intros Hi H. unfold after. destruct e as [m res ok | p | p]; simpl.
  - unfold messageCreate. destruct (negb (prefixed m) || author_bot m); [done |].
    by apply listened_run_command.
  - by apply listened_emit_idle.
  - destruct (emit_error_cases p w) as [-> | [[_ ->] | (cl & _ & [-> | ->])]];
      [done | by apply listened_emit_idle | by apply listened_error_listener |].
    by apply listened_emit_idle, listened_error_listener.
Qed.

Lemma reachable_listened (w : world) : reachable w → listened w.
Proof.
  induction 1 as [| e w Hw IH]; [by intros c st; simpl; rewrite lookup_empty |].
  apply listened_after; [by apply reachable_inv | done].
Qed.

(** X3: in every reachable world every live connection is the connection
    of a session in the store: no connection is left open without a
    session that can still stop it. *)
Theorem live_connection_has_session (w : world) (c : conn_id) :
  reachable w →
  connections w !! c = Some Live →
  ∃ g s, session_of g w = Some s ∧ connection s = Some c.
Proof.
  intros Hw Hc. pose proof (reachable_inv w Hw) as Hi.
  destruct (reachable_listened w Hw c Live Hc) as (p & cl & Hl & <-).
  pose proof (inv_live _ _ _ _ _ Hi _ _ Hl Hc) as Hq.
  destruct (inv_store _ _ _ _ _ Hi _ _ Hq) as (s & c0 & p0 & Hs & Hc0 & _ & _ & Hl0).
  pose proof (inv_session_inj _ _ _ _ _ Hi _ _ _ _ Hl Hl0 eq_refl) as <-.
  rewrite Hl in Hl0. injection Hl0 as Hcl. rewrite Hcl in *. simpl in *.
  exists (cl_guild cl), s. unfold session_of. rewrite Hcl. simpl. rewrite Hq.
  simpl. by rewrite Hcl in Hs.
Qed.

Lemma live_connection_has_session_witness :
  ∃ g s, session_of g playing_A = Some s ∧ connection s = Some 2.
Proof.
  apply (live_connection_has_session playing_A 2).
  - apply (reachable_run [play_A] initial reachable_initial).
  - reflexivity.
Defined.

(** ** Players created and voice channels joined *)

Lemma quiet_trans (w1 w2 w3 : world) : quiet w1 w2 → quiet w2 w3 → quiet w1 w3.
Proof.
  intros (l1 & H1 & F1) (l2 & H2 & F2). exists (l1 ++ l2).
  split; [by rewrite H2, H1, app_assoc | by apply Forall_app].
Qed.

Lemma quiet_playSong (g : guild_id) (o : option song) (w : world) :
  quiet w (playSong g o w).2.
Proof.
  js_unfold. destruct o as [sng |]; simpl; [| quiet_tac].
  destruct (queue w !! g) as [r |]; simpl; [| quiet_tac].
  destruct (heap w !! r) as [s |]; simpl; [| quiet_tac].
  destruct (player s); simpl; quiet_tac.
Qed.

Lemma quiet_count (w w' : world) :
  quiet w w' →
  length (List.filter is_create (effects_since w w')) = 0 ∧
  length (List.filter is_join (effects_since w w')) = 0.
Proof.
  intros (l & Hl & Hf). unfold effects_since. rewrite Hl, drop_app_length.
  clear Hl. induction Hf as [| x l [Hc Hj] _ IH]; [done |]. simpl. rewrite Hc, Hj. exact IH.
Qed.

Lemma quiet_idle_listener (cl : closure) (w : world) : quiet w (idle_listener cl w).2.
Proof.
  unfold idle_listener.
  unfold mbind at 1, M_bind at 1, update_object at 1, modify at 1.
  unfold mbind at 1, M_bind at 1, deref at 1, mbind at 1, M_bind at 1, gets at 1, defined.
  set (w1 := set_heap _ w). assert (H1 : quiet w w1) by (subst w1; quiet_tac).
  destruct (heap w1 !! cl_session cl) as [s |]; [| exact H1].
  simpl. case_bool_decide.
  - eapply quiet_trans; [exact H1 | apply quiet_playSong].
  - js_unfold. simpl.
    destruct (connections w !! cl_connection cl) as [[] |]; simpl; subst w1; quiet_tac.
Qed.

Lemma quiet_error_listener (cl : closure) (w : world) : quiet w (error_listener cl w).2.
Proof.
  unfold error_listener.
  unfold mbind at 1, M_bind at 1, emit at 1, modify at 1.
  unfold mbind at 1, M_bind at 1, update_object at 1, modify at 1.
  unfold mbind at 1, M_bind at 1, deref at 1, mbind at 1, M_bind at 1, gets at 1, defined.
  set (w1 := set_heap _ _). assert (H1 : quiet w w1) by (subst w1; quiet_tac).
  destruct (heap w1 !! cl_session cl) as [s |]; [| exact H1].
  simpl. eapply quiet_trans; [exact H1 | apply quiet_playSong].
Qed.

Lemma quiet_other_commands (m : message) (res : resolution) (ok : bool) (w : world) :
  cmd m ≠ CmdPlay →
  quiet w (run_command (queue w !! guild m) m res ok w).2.
Proof.
  intros Hc. unfold run_command. destruct (queue w !! guild m) as [r |];
    destruct (cmd m); try done; try quiet_tac.
  - unfold skip_command. js_unfold. simpl.
    destruct (heap w !! r) as [s |]; simpl; [| quiet_tac].
    destruct (player s); simpl; quiet_tac.
  - unfold stop_command. js_unfold. simpl.
    rewrite lookup_alter_eq. destruct (heap w !! r) as [s |]; simpl; [| quiet_tac].
    destruct (player s); simpl; [| quiet_tac].
    destruct (connection s) as [c |]; simpl; [| quiet_tac].
    destruct (connections w !! c) as [[] |]; simpl; quiet_tac.
  - unfold pause_command. js_unfold. simpl.
    destruct (heap w !! r) as [s |]; simpl; [| quiet_tac].
    destruct (player s); simpl; quiet_tac.
  - unfold resume_command. js_unfold. simpl.
    destruct (heap w !! r) as [s |]; simpl; [| quiet_tac].
    destruct (player s); simpl; quiet_tac.
  - unfold queue_command. js_unfold. simpl.
    destruct (heap w !! r) as [s |]; simpl; [| quiet_tac].
    case_bool_decide; [quiet_tac |]. destruct (_ <=? _); quiet_tac.
  - unfold now_command. js_unfold. simpl.
    destruct (heap w !! r) as [s |]; simpl; [| quiet_tac].
    destruct (head (songs s)); quiet_tac.
Qed.

Lemma quiet_emit_idle (p : player_id) (w : world) : quiet w (emit_idle p w).2.
Proof.
  unfold emit_idle. unfold mbind at 1, M_bind at 1, modify at 1.
  unfold mbind at 1, M_bind at 1, gets at 1.
  set (w1 := set_players _ w). change (listeners w1 !! p) with (listeners w !! p).
  destruct (listeners w !! p) as [cl |]; [| subst w1; quiet_tac].
  eapply quiet_trans; [| apply quiet_idle_listener]. subst w1. quiet_tac.
Qed.

Lemma quiet_unless_start (e : event) (w : world) :
  starts_session w e = false → quiet w (after e w).
Proof.
  intros Hno. unfold after. destruct e as [m res ok | p | p]; simpl.
  - unfold messageCreate.
    destruct (negb (prefixed m) || author_bot m) eqn:Hacc; [quiet_tac |].
    apply orb_false_elim in Hacc as [Hp%negb_false_iff Hb].
    unfold mbind, M_bind, queue_get, gets.
    destruct (decide (cmd m = CmdPlay)) as [Hc | Hc]; [| by apply quiet_other_commands].
    unfold run_command. rewrite Hc. unfold play_command.
    destruct (voice m) as [vc |] eqn:Hv; [| quiet_tac].
    destruct (can_connect m) eqn:Hcc; [| quiet_tac].
    destruct (can_speak m) eqn:Hcs; [| quiet_tac]. simpl.
    case_bool_decide as Hs; [quiet_tac |].
    destruct res as [| | [sng |]]; try quiet_tac.
    destruct (queue w !! guild m) as [r |] eqn:Hq; [quiet_tac |].
    exfalso. simpl in Hno.
    rewrite (proj2 (play_request_spec (guild m) m)) in Hno by eauto 10.
    by rewrite bool_decide_eq_true_2 in Hno.
  - apply quiet_emit_idle.
  - destruct (emit_error_cases p w) as [-> | [[_ ->] | (cl & _ & [-> | ->])]];
      [quiet_tac | apply quiet_emit_idle | apply quiet_error_listener |].
    eapply quiet_trans; [apply quiet_error_listener | apply quiet_emit_idle].
Qed.

(** X4: whatever the world, an event creates a player and joins a voice
    channel exactly once each when it is a play command with a resolved
    song that finds no session for its guild, and does neither otherwise:
    not a later play, not the queue advancing, not any other command. *)
Theorem acquires_once_per_session (e : event) (w : world) :
  length (List.filter is_create (effects_since w (after e w))) =
    (if starts_session w e then 1 else 0) ∧
  length (List.filter is_join (effects_since w (after e w))) =
    (if starts_session w e then 1 else 0).
Proof.
  destruct (starts_session w e) eqn:Hst;
    [| by apply quiet_count, quiet_unless_start].
  destruct e as [m [| | [sng |]] ok | |]; try done. simpl in Hst.
  apply andb_true_iff in Hst as [Hreq Hq%bool_decide_eq_true].
  pose proof Hreq as (Hp & Hb & _ & Hc & [vc Hv] & Hcc & Hcs & Hs)%play_request_spec.
  unfold after. simpl. rewrite messageCreate_accepted by by apply accepted_spec.
  unfold run_command, play_command. rewrite Hc, Hv, Hcc, Hcs, Hq. simpl.
  rewrite bool_decide_eq_false_2 by done.
  destruct ok; [rewrite start_session_joined | rewrite start_session_join_failed];
    unfold effects_since, started, not_started; simpl; by rewrite drop_app_length.
Qed.

(** ** Commands return *)

(** X5: in every reachable world the message listener returns normally,
    whatever the message, with one exception: a queue command for a guild
    whose list of songs makes a description of more than 4096 characters
    throws, in the embed builder.  Nothing else throws: the handles the
    commands read from a stored session are set, and the connection a stop
    destroys is live. *)
Theorem only_long_queue_throws (m : message) (res : resolution) (ok : bool) (w : world) :
  reachable w →
  (messageCreate m res ok w).1 =
    if accepted m && bool_decide (cmd m = CmdQueue) &&
       negb (String.length (queue_description (queue_of (guild m) w)) <=? description_limit)
    then Throw DescriptionTooLong
    else Done ().
Proof.
  intros Hw. destruct (accepted m) eqn:Ha; simpl.
  2: { unfold messageCreate. unfold accepted in Ha.
       by destruct (prefixed m), (author_bot m). }
  rewrite messageCreate_accepted by done. unfold run_command, queue_of, session_of.
  destruct (queue w !! guild m) as [r |] eqn:Hq; simpl.
  - destruct (stored_session w (guild m) r Hw Hq) as (s & c & p & Hs & Hc & Hp & Hl & _).
    rewrite Hs. simpl.
    destruct (cmd m); simpl; try done.
    + unfold play_command. destruct (voice m); [| done].
      destruct (negb (can_connect m) || negb (can_speak m)); [done |].
      case_bool_decide; [done |]. by destruct res as [| | [|]].
    + unfold skip_command. js_unfold. simpl. rewrite Hs. simpl. by rewrite Hp.
    + unfold stop_command. js_unfold. simpl. rewrite lookup_alter_eq, Hs. simpl.
      rewrite Hp, Hc. simpl. by rewrite Hl.
    + unfold pause_command. js_unfold. simpl. rewrite Hs. simpl. by rewrite Hp.
    + unfold resume_command. js_unfold. simpl. rewrite Hs. simpl. by rewrite Hp.
    + unfold queue_command. js_unfold. simpl. rewrite Hs. simpl.
      destruct (songs s) as [| x l]; [done |].
      rewrite bool_decide_eq_false_2 by done. by destruct (_ <=? _).
    + unfold now_command. js_unfold. simpl. rewrite Hs. simpl. by destruct (head (songs s)).
  - destruct (cmd m); simpl; try done.
    unfold play_command. destruct (voice m); [| done].
    destruct (negb (can_connect m) || negb (can_speak m)); [done |].
    case_bool_decide; [done |]. destruct res as [| | [sng |]]; try done.
    destruct ok; [by rewrite start_session_joined | by rewrite start_session_join_failed].
Qed.

Lemma only_long_queue_throws_witness :
  (messageCreate (plain CmdQueue 1 7) LookupThrows false long_queue).1 =
    if accepted (plain CmdQueue 1 7) && bool_decide (cmd (plain CmdQueue 1 7) = CmdQueue) &&
       negb (String.length (queue_description (queue_of 1 long_queue)) <=? description_limit)
    then Throw DescriptionTooLong
    else Done ().
Proof.
  apply (only_long_queue_throws (plain CmdQueue 1 7) LookupThrows false long_queue).
  apply reachable_run, reachable_initial.
Defined.

(** ** Queue and now *)

(** X6: in every reachable world the queue and now commands read the same
    queue and change nothing in it.  Both report it empty exactly when the
    guild has no session or its session has no song.  Otherwise the queue
    command sends one embed, whose description lists the songs of the
    queue in order, one numbered line each, unless that description has
    more than 4096 characters, in which case it sends nothing (the embed
    builder throws); and now names the first song of the queue. *)
Theorem queue_and_now_agree (g : guild_id) (ch : channel_id) (res : resolution)
    (ok : bool) (w : world) :
  reachable w →
  effects_since w (after (Incoming (plain CmdQueue g ch) res ok) w) =
    match queue_of g w with
    | [] => [Reply QueueIsEmpty]
    | _ =>
        if String.length (queue_description (queue_of g w)) <=? description_limit
        then [Send ch (CurrentQueue (queue_description (queue_of g w)))]
        else []
    end ∧
  lists_in_order (queue_description (queue_of g w)) (queue_of g w) ∧
  effects_since w (after (Incoming (plain CmdNow g ch) res ok) w) =
    [match queue_of g w with
     | [] => Reply NothingPlayingNow
     | s :: _ => Send ch (NowPlayingInfo (title s))
     end] ∧
  queue_of g (after (Incoming (plain CmdQueue g ch) res ok) w) = queue_of g w ∧
  queue_of g (after (Incoming (plain CmdNow g ch) res ok) w) = queue_of g w.
Proof.
  intros Hw. split; [| split; [apply queue_description_lists |]];
    unfold after, effects_since, queue_of, session_of; simpl;
    rewrite !messageCreate_accepted by done; unfold run_command; simpl.
  - destruct (queue w !! g) as [r |] eqn:Hq; simpl;
      [| by rewrite drop_app_length].
    destruct (stored_session w g r Hw Hq) as (s & _ & _ & Hs & _).
    unfold queue_command. js_unfold. simpl. rewrite Hs. simpl.
    destruct (songs s) as [| x l] eqn:Hsongs; simpl; [by rewrite drop_app_length |].
    destruct (_ <=? _); simpl; [by rewrite drop_app_length | by rewrite drop_all].
  - destruct (queue w !! g) as [r |] eqn:Hq.
    + destruct (stored_session w g r Hw Hq) as (s & _ & _ & Hs & _).
      unfold queue_command, now_command. js_unfold. simpl. rewrite Hs. simpl.
      destruct (songs s) as [| x l] eqn:Hsongs; simpl;
        try destruct (_ <=? _); simpl;
        rewrite ?Hq; simpl; rewrite ?Hs; simpl; rewrite ?Hsongs;
        by rewrite !drop_app_length.
    + simpl. rewrite Hq. simpl. by rewrite !drop_app_length.
Qed.

Lemma queue_and_now_agree_witness :
  effects_since playing_AB (after (Incoming (plain CmdQueue 1 7) LookupThrows false) playing_AB) =
    match queue_of 1 playing_AB with
    | [] => [Reply QueueIsEmpty]
    | _ =>
        if String.length (queue_description (queue_of 1 playing_AB)) <=? description_limit
        then [Send 7 (CurrentQueue ("`1.` A" +:+ newline +:+ "`2.` B"))]
        else []
    end ∧
  lists_in_order ("`1.` A" +:+ newline +:+ "`2.` B") [song_A; song_B] ∧
  effects_since playing_AB (after (Incoming (plain CmdNow 1 7) LookupThrows false) playing_AB) =
    [match queue_of 1 playing_AB with
     | [] => Reply NothingPlayingNow
     | s :: _ => Send 7 (NowPlayingInfo (title s))
     end] ∧
  queue_of 1 (after (Incoming (plain CmdQueue 1 7) LookupThrows false) playing_AB) =
    queue_of 1 playing_AB ∧
  queue_of 1 (after (Incoming (plain CmdNow 1 7) LookupThrows false) playing_AB) =
    queue_of 1 playing_AB.
Proof.
  apply (queue_and_now_agree 1 7 LookupThrows false playing_AB).
  apply (reachable_run [play_A; play_B] initial reachable_initial).
Defined.

(** ** The last song ends *)

(** X7: in every reachable world the idle event of a stored session's
    player, when at most one song is queued, returns normally having
    destroyed the session's connection (its only effect) and deleted the
    guild from the store; the player is idle. *)
Theorem idle_on_last_song_releases (w : world) (g : guild_id) (s : session)
    (p : player_id) (c : conn_id) :
  reachable w →
  session_of g w = Some s →
  player s = Some p →
  connection s = Some c →
  length (songs s) ≤ 1 →
  ∃ w', dispatch (Idle p) w = (Done (), w') ∧
    session_of g w' = None ∧
    connections w' !! c = Some Destroyed ∧
    player_status_of p w' = PIdle ∧
    effects_since w w' = [Destroy c].
Proof.
  intros Hw Hs Hp Hc Hlen. unfold session_of in Hs.
  destruct (queue w !! g) as [r |] eqn:Hq; [| done]. simpl in Hs.
  destruct (stored_session w g r Hw Hq) as (s' & c' & p' & Hs' & Hc' & Hp' & Hlv & Hl).
  assert (s' = s) as -> by congruence. assert (c' = c) as -> by congruence.
  assert (p' = p) as -> by congruence.
  eexists. split.
  - simpl. js_unfold. simpl. rewrite Hl. simpl. rewrite lookup_alter_eq, Hs. simpl.
    rewrite bool_decide_eq_false_2 by (destruct (songs s) as [| ? [|]]; simpl in *; lia).
    simpl. rewrite Hlv. reflexivity.
  - unfold session_of, effects_since, player_status_of. simpl.
    rewrite lookup_delete_eq, lookup_insert_eq, drop_app_length. repeat split; try done.
    rewrite lookup_alter_eq. by destruct (players w !! p).
Qed.

Lemma idle_on_last_song_releases_witness :
  ∃ w', dispatch (Idle 0) playing_A = (Done (), w') ∧
    session_of 1 w' = None ∧
    connections w' !! 2 = Some Destroyed ∧
    player_status_of 0 w' = PIdle ∧
    effects_since playing_A w' = [Destroy 2].
Proof.
  apply (idle_on_last_song_releases playing_A 1 (Session 9 7 (Some 2) (Some 0) [song_A])).
  - apply (reachable_run [play_A] initial reachable_initial).
  - reflexivity.
  - reflexivity.
  - reflexivity.
  - simpl. lia.
Defined.

(** ** Stop, then play *)

(** X8: after a stop, a play command starts the guild afresh: a new session
    with the one song, on a new player and a new live connection, the
    old connection being destroyed. *)
Theorem play_after_stop_starts_afresh (w : world) (g : guild_id) (s : session)
    (p : player_id) (c : conn_id) (ms mp : message) (vc : channel_id) (sng : song)
    (res : resolution) (ok : bool) :
  reachable w →
  session_of g w = Some s →
  player s = Some p →
  connection s = Some c →
  accepted ms = true → cmd ms = CmdStop → guild ms = g →
  play_request g mp = true → voice mp = Some vc →
  let w2 := run [Incoming ms res ok; Incoming mp (Info (Some sng)) true] w in
  session_of g w2 =
    Some (Session vc (channel mp) (Some (S (S (next w)))) (Some (next w)) [sng]) ∧
  next w ≠ p ∧ S (S (next w)) ≠ c ∧
  connections w2 !! c = Some Destroyed ∧
  connections w2 !! S (S (next w)) = Some Live ∧
  player_status_of (next w) w2 = PPlaying.
Proof.
  intros Hw Hs Hp Hc Ha Hcmd Hg Hreq Hv. subst g. unfold session_of in Hs.
  destruct (queue w !! guild ms) as [r |] eqn:Hq; [| done]. simpl in Hs.
  destruct (stored_session w (guild ms) r Hw Hq) as (s' & c' & p' & Hs' & Hc' & Hp' & Hlv & Hl).
  assert (s' = s) as -> by congruence. assert (c' = c) as -> by congruence.
  assert (p' = p) as -> by congruence.
  destruct (inv_fresh _ _ _ _ _ (reachable_inv w Hw) _ _ Hl) as (Hlt1 & _ & Hlt2).
  simpl in Hlt1, Hlt2.
  pose proof Hreq as (_ & _ & Hgp & _)%play_request_spec.
  assert (Hw2 : run [Incoming ms res ok; Incoming mp (Info (Some sng)) true] w =
                started mp vc sng (stopped ms r c p w)).
  { unfold run, after. simpl.
    rewrite (stop_on_session ms res ok w r s c p) by done. simpl.
    rewrite (play_starts_session mp sng (stopped ms r c p w) vc); [done | | done |].
    - by rewrite Hgp.
    - unfold stopped. simpl. rewrite Hgp. apply lookup_delete_eq. }
  cbv zeta. rewrite Hw2.
  unfold session_of, player_status_of, started, stopped. simpl.
  rewrite Hgp. rewrite !lookup_insert_eq. simpl. rewrite lookup_insert_eq.
  rewrite lookup_insert_ne by lia. rewrite lookup_insert_eq.
  repeat split; (done || lia).
Qed.

Lemma play_after_stop_starts_afresh_witness :
  let w2 := run [Incoming (plain CmdStop 1 7) LookupThrows false;
                 Incoming (play_msg 1 "b") (Info (Some song_B)) true] playing_A in
  session_of 1 w2 =
    Some (Session 9 7 (Some (S (S (next playing_A)))) (Some (next playing_A)) [song_B]) ∧
  next playing_A ≠ 0 ∧ S (S (next playing_A)) ≠ 2 ∧
  connections w2 !! 2 = Some Destroyed ∧
  connections w2 !! S (S (next playing_A)) = Some Live ∧
  player_status_of (next playing_A) w2 = PPlaying.
Proof.
  apply (play_after_stop_starts_afresh playing_A 1 (Session 9 7 (Some 2) (Some 0) [song_A])
           0 2 (plain CmdStop 1 7) (play_msg 1 "b") 9 song_B LookupThrows false).
  - apply (reachable_run [play_A] initial reachable_initial).
  - reflexivity.
  - reflexivity.
  - reflexivity.
  - reflexivity.
  - reflexivity.
  - reflexivity.
  - reflexivity.
  - reflexivity.
Defined.

(** ** Plays that resume late *)

(** X9: a play listener that read the session object [r] on arrival and
    resumes after a stop command has removed the session.  It pushes its
    song onto [r], which the stop had emptied, and tells the user the song
    was added.  But no entry of the store refers to [r] any more: the guild
    has no session and its queue is empty.  Nothing is started: the
    players are as the stop left them, and the player of [r], whose
    connection is destroyed, owes no idle event that would advance [r]. *)
Theorem play_resumed_after_stop_is_lost (w : world) (g : guild_id) (r : ref)
    (ms mp : message) (sng : song) (res : resolution) (ok ok' : bool) :
  reachable w →
  play_request g mp = true →
  arrive mp w = Some r →
  accepted ms = true → cmd ms = CmdStop → guild ms = g →
  let w1 := after (Incoming ms res ok) w in
  ∃ w2 s p c,
    session_of g w = Some s ∧ player s = Some p ∧ connection s = Some c ∧
    play_command (arrive mp w) mp (Info (Some sng)) ok' w1 = (Done (), w2) ∧
    effects_since w1 w2 = [Send (channel mp) (AddedToQueue (title sng))] ∧
    heap w2 !! r = Some (with_songs [sng] s) ∧
    (∀ g', queue w2 !! g' ≠ Some r) ∧
    session_of g w2 = None ∧
    queue_of g w2 = [] ∧
    players w2 = players w1 ∧
    connections w2 !! c = Some Destroyed ∧
    idle_due p w2 = false.
Proof.
  intros Hw Hreq Harr Ha Hcmd Hg. subst g.
  pose proof Hreq as (_ & _ & Hgp & _)%play_request_spec.
  unfold arrive in *. rewrite Hgp in Harr. rewrite Hgp.
  pose proof (reachable_inv w Hw) as Hi.
  destruct (stored_session w (guild ms) r Hw Harr) as (s & c & p & Hs & Hc & Hp & Hlv & Hl).
  cbv zeta. unfold after. simpl.
  rewrite (stop_on_session ms res ok w r s c p) by done. simpl. rewrite Harr.
  eexists _, s, p, c.
  split; [by unfold session_of; rewrite Harr |]. do 2 (split; [done |]).
  split; [apply play_command_append; by rewrite Hgp |].
  unfold effects_since, queue_of, session_of, idle_due, stopped. simpl.
  rewrite lookup_delete_eq, drop_app_length, !lookup_alter_eq, Hs, Hl. simpl.
  rewrite lookup_insert_eq.
  split; [done |]. split; [done |].
  split.
  { intros g' [Hne Hq']%lookup_delete_Some.
    destruct (inv_store _ _ _ _ _ Hi _ _ Hq') as (s' & c' & p' & _ & _ & _ & _ & Hl').
    pose proof (inv_session_inj _ _ _ _ _ Hi _ _ _ _ Hl Hl' eq_refl) as <-.
    rewrite Hl in Hl'. by injection Hl' as ->. }
  do 4 (split; [done |]).
  rewrite (bool_decide_eq_false_2 (Some Destroyed = Some Live)) by done.
  apply andb_false_r.
Qed.

Lemma play_resumed_after_stop_is_lost_witness :
  let w1 := after (Incoming (plain CmdStop 1 7) LookupThrows false) playing_A in
  ∃ w2 s p c,
    session_of 1 playing_A = Some s ∧ player s = Some p ∧ connection s = Some c ∧
    play_command (arrive (play_msg 1 "b") playing_A) (play_msg 1 "b") (Info (Some song_B))
      true w1 = (Done (), w2) ∧
    effects_since w1 w2 = [Send (channel (play_msg 1 "b")) (AddedToQueue (title song_B))] ∧
    heap w2 !! 1 = Some (with_songs [song_B] s) ∧
    (∀ g', queue w2 !! g' ≠ Some 1) ∧
    session_of 1 w2 = None ∧
    queue_of 1 w2 = [] ∧
    players w2 = players w1 ∧
    connections w2 !! c = Some Destroyed ∧
    idle_due p w2 = false.
Proof.
  apply (play_resumed_after_stop_is_lost playing_A 1 1 (plain CmdStop 1 7) (play_msg 1 "b")
           song_B LookupThrows false true).
  - apply (reachable_run [play_A] initial reachable_initial).
  - reflexivity.
  - reflexivity.
  - reflexivity.
  - reflexivity.
  - reflexivity.
Defined.

(** X10: two play listeners that both arrived while the guild had no session:
    the one that resumes second replaces the session of the first; the
    store then holds the second song only, the first song is in an object
    the store no longer refers to, and two players were created. *)
Theorem racing_first_plays_lose_a_song (w : world) (g : guild_id) (m1 m2 : message)
    (vc1 vc2 : channel_id) (a b : song) :
  play_request g m1 = true → voice m1 = Some vc1 →
  play_request g m2 = true → voice m2 = Some vc2 →
  let w1 := (play_command None m1 (Info (Some a)) true w).2 in
  let w2 := (play_command None m2 (Info (Some b)) true w1).2 in
  queue_of g w2 = [b] ∧
  queue w1 !! g = Some (S (next w)) ∧
  queue w2 !! g = Some (S (next w1)) ∧
  S (next w1) ≠ S (next w) ∧
  (songs <$> heap w2 !! S (next w)) = Some [a] ∧
  length (List.filter is_create (effects_since w w2)) = 2.
Proof.
  intros Hr1 Hv1 Hr2 Hv2.
  pose proof Hr1 as (_ & _ & Hg1 & _ & _ & Hcc1 & Hcs1 & Hs1)%play_request_spec.
  pose proof Hr2 as (_ & _ & Hg2 & _ & _ & Hcc2 & Hcs2 & Hs2)%play_request_spec.
  cbv zeta. unfold play_command. rewrite Hv1, Hv2, Hcc1, Hcs1, Hcc2, Hcs2. simpl.
  rewrite !bool_decide_eq_false_2 by done.
  rewrite !start_session_joined. simpl.
  unfold queue_of, session_of, effects_since, started. simpl. rewrite Hg1, Hg2.
  rewrite !lookup_insert_eq. simpl. rewrite lookup_insert_eq.
  rewrite lookup_insert_ne by lia. rewrite lookup_insert_eq.
  rewrite <- app_assoc, drop_app_length. simpl.
  repeat split; (done || lia).
Qed.

Lemma racing_first_plays_lose_a_song_witness :
  let w1 := (play_command None (play_msg 1 "a") (Info (Some song_A)) true initial).2 in
  let w2 := (play_command None (play_msg 1 "b") (Info (Some song_B)) true w1).2 in
  queue_of 1 w2 = [song_B] ∧
  queue w1 !! 1 = Some (S (next initial)) ∧
  queue w2 !! 1 = Some (S (next w1)) ∧
  S (next w1) ≠ S (next initial) ∧
  (songs <$> heap w2 !! S (next initial)) = Some [song_A] ∧
  length (List.filter is_create (effects_since initial w2)) = 2.
Proof.
  apply (racing_first_plays_lose_a_song initial 1 (play_msg 1 "a") (play_msg 1 "b") 9 9
           song_A song_B).
  - reflexivity.
  - reflexivity.
  - reflexivity.
  - reflexivity.
Defined.

(** ** Pause, then resume *)

(** X11: pausing a playing session and resuming it gives back the playing
    state: the player is paused in between and playing afterwards, no
    player has another status than before, and the store, the session
    objects and the connections are as they were. *)
Theorem pause_then_resume_restores (w : world) (g : guild_id) (ch : channel_id)
    (s : session) (p : player_id) (res res' : resolution) (ok ok' : bool) :
  reachable w →
  session_of g w = Some s →
  player s = Some p →
  player_status_of p w = PPlaying →
  let w1 := after (Incoming (plain CmdPause g ch) res ok) w in
  let w2 := after (Incoming (plain CmdResume g ch) res' ok') w1 in
  player_status_of p w1 = PPaused ∧
  (∀ q, player_status_of q w2 = player_status_of q w) ∧
  queue w2 = queue w ∧ heap w2 = heap w ∧ connections w2 = connections w ∧
  effects_since w w2 = [PlayerPause p; Send ch Paused; PlayerUnpause p; Send ch Resumed].
Proof.
  intros Hw Hs Hp Hst. unfold session_of in Hs.
  destruct (queue w !! g) as [r |] eqn:Hq; [| done]. simpl in Hs.
  assert (Hw1 : after (Incoming (plain CmdPause g ch) res ok) w =
                add_log (Send ch Paused)
                  (set_players <[p := PPaused]> (add_log (PlayerPause p) w))).
  { unfold after. simpl. rewrite messageCreate_accepted by done.
    unfold run_command. simpl. rewrite Hq. unfold pause_command. js_unfold. simpl.
    rewrite Hs. simpl. rewrite Hp. simpl.
    change (player_status_of p (add_log (PlayerPause p) w)) with (player_status_of p w).
    by rewrite Hst. }
  cbv zeta. rewrite Hw1. set (w1 := add_log _ _).
  assert (Hst1 : player_status_of p w1 = PPaused).
  { unfold player_status_of, w1. simpl. by rewrite lookup_insert_eq. }
  assert (Hw2 : after (Incoming (plain CmdResume g ch) res' ok') w1 =
                add_log (Send ch Resumed)
                  (set_players <[p := PPlaying]> (add_log (PlayerUnpause p) w1))).
  { unfold after. simpl. rewrite messageCreate_accepted by done.
    unfold run_command. simpl. unfold resume_command. js_unfold. simpl.
    rewrite Hq. simpl. rewrite Hs. simpl. rewrite Hp. simpl.
    change (player_status_of p (add_log (PlayerUnpause p) w1)) with (player_status_of p w1).
    by rewrite Hst1. }
  rewrite Hw2. split; [done |]. split.
  { intros q. unfold player_status_of, w1. simpl. rewrite !lookup_insert.
    case_decide; [subst q; by rewrite <- Hst | done]. }
  unfold effects_since, w1. simpl. repeat split.
  rewrite <- !app_assoc. by rewrite drop_app_length.
Qed.

Lemma pause_then_resume_restores_witness :
  let w1 := after (Incoming (plain CmdPause 1 7) LookupThrows false) playing_AB in
  let w2 := after (Incoming (plain CmdResume 1 7) LookupThrows false) w1 in
  player_status_of 0 w1 = PPaused ∧
  (∀ q, player_status_of q w2 = player_status_of q playing_AB) ∧
  queue w2 = queue playing_AB ∧ heap w2 = heap playing_AB ∧
  connections w2 = connections playing_AB ∧
  effects_since playing_AB w2 =
    [PlayerPause 0; Send 7 Paused; PlayerUnpause 0; Send 7 Resumed].
Proof.
  apply (pause_then_resume_restores playing_AB 1 7
           (Session 9 7 (Some 2) (Some 0) [song_A; song_B]) 0
           LookupThrows LookupThrows false false).
  - apply (reachable_run [play_A; play_B] initial reachable_initial).
  - reflexivity.
  - reflexivity.
  - reflexivity.
Defined.

(** ** Texts: the first script *)

Lemma split_space_cons (s : string) : ∃ w ws, split_space s = w :: ws.
Proof.
  induction s as [| c s (w & ws & IH)]; simpl; [eauto |].
  destruct (Ascii.eqb c " "%char); [eauto |]. rewrite IH. eauto.
Qed.

(** Joining with a space undoes splitting at spaces. *)
Lemma concat_split_space (s : string) : String.concat " " (split_space s) = s.
Proof.
  induction s as [| c s IH]; [done |]. simpl.
  destruct (Ascii.eqb c " "%char) eqn:Hc.
  - apply Ascii.eqb_eq in Hc as ->.
    destruct (split_space_cons s) as (w & ws & Hs). rewrite Hs in *.
    change (String.concat " " (EmptyString :: w :: ws))
      with (String " "%char (String.concat " " (w :: ws))).
    by rewrite IH.
  - destruct (split_space_cons s) as (w & ws & Hs). rewrite Hs in *.
    destruct ws; simpl in *; by rewrite <- IH.
Qed.

Lemma split_space_word (w rest : string) :
  no_space w = true →
  split_space (w +:+ String " "%char rest) = w :: split_space rest.
Proof.
  induction w as [| c w IH]; simpl; [done |].
  intros [Hc Hw]%andb_true_iff. apply negb_true_iff in Hc. rewrite Hc.
  by rewrite IH.
Qed.

Lemma split_space_no_space (w : string) :
  no_space w = true → split_space w = [w].
Proof.
  induction w as [| c w IH]; simpl; [done |].
  intros [Hc Hw]%andb_true_iff. apply negb_true_iff in Hc. rewrite Hc.
  by rewrite IH.
Qed.

(** The query of the first script is the text after the first space; there
    is none when the text has no space. *)
Lemma simple_query_rest (w rest : string) :
  no_space w = true →
  simple_query (w +:+ String " "%char rest) = rest ∧ simple_query w = EmptyString.
Proof.
  intros Hw. unfold simple_query.
  rewrite split_space_word, (split_space_no_space w) by done.
  split; [apply concat_split_space | done].
Qed.

(** X12: the first script plays whatever follows the first space of a text
    that starts with [!play], whatever comes between [!play] and that
    space; it asks for a query before it asks for a voice channel. *)
Theorem simple_play_reads_rest (suffix rest : string) (v : option channel_id) :
  no_space suffix = true →
  simple_messageCreate ("!play" +:+ suffix +:+ String " "%char rest) false v =
    (if String.eqb rest EmptyString then SimpleNoQuery
     else match v with
          | None => SimpleNoVoice
          | Some _ => SimplePlay rest
          end) ∧
  simple_messageCreate ("!play" +:+ suffix) false v = SimpleNoQuery.
Proof.
  intros Hs.
  destruct (simple_query_rest ("!play" +:+ suffix) rest) as [Hq Hn];
    [done |].
  unfold simple_messageCreate.
  change ("!play" +:+ suffix +:+ String " "%char rest)
    with (("!play" +:+ suffix) +:+ String " "%char rest).
  rewrite Hq, Hn.
  assert (Hp : ∀ x, String.prefix "!play" ("!play" +:+ x) = true).
  { intros x. simpl. by destruct x. }
  change (("!play" +:+ suffix) +:+ String " "%char rest)
    with ("!play" +:+ (suffix +:+ String " "%char rest)).
  by rewrite !Hp.
Qed.

Lemma simple_play_reads_rest_witness :
  simple_messageCreate ("!play" +:+ "list" +:+ String " "%char "never  gonna") false (Some 9) =
    (if String.eqb "never  gonna" EmptyString then SimpleNoQuery
     else match Some 9 with
          | None => SimpleNoVoice
          | Some _ => SimplePlay "never  gonna"
          end) ∧
  simple_messageCreate ("!play" +:+ "list") false (Some 9) = SimpleNoQuery.
Proof.
  apply (simple_play_reads_rest "list" "never  gonna" (Some 9)).
  reflexivity.
Defined.

(** ** Texts: the second script *)

Lemma split_runs_cons (s : string) : ∃ w ws, split_runs s = w :: ws.
Proof.
  induction s as [| c s (w & ws & IH)]; simpl; [eauto |].
  destruct (Ascii.eqb c " "%char).
  - destruct s as [| c' s']; [eauto |]. destruct (Ascii.eqb c' " "%char); eauto.
  - rewrite IH. eauto.
Qed.

Lemma not_white_not_space (c : Ascii.ascii) : is_white c = false → Ascii.eqb c " "%char = false.
Proof.
  intros Hc. apply Ascii.eqb_neq. intros ->. done.
Qed.

Lemma trim_start_white (lead s : string) :
  white lead = true → trim_start (lead +:+ s) = trim_start s.
Proof.
  induction lead as [| c lead IH]; simpl; [done |].
  intros [Hc Hl]%andb_true_iff. rewrite Hc. by apply IH.
Qed.

Lemma trim_end_all_white (t : string) : white t = true → trim_end t = EmptyString.
Proof.
  induction t as [| c t IH]; simpl; [done |].
  intros [Hc Ht]%andb_true_iff. by rewrite (IH Ht), Hc.
Qed.

Lemma trim_end_white (s trail : string) :
  white trail = true → trim_end (s +:+ trail) = trim_end s.
Proof.
  intros Ht. induction s as [| c s IH]; simpl; [by apply trim_end_all_white |].
  by rewrite IH.
Qed.

Lemma trim_end_ends_plain (s : string) : ends_plain s = true → trim_end s = s.
Proof.
  induction s as [| c s IH]; simpl; [done |].
  destruct s as [| c' s'].
  - simpl. intros Hc%negb_true_iff. by rewrite Hc.
  - intros H. rewrite (IH H). done.
Qed.

Lemma ends_plain_app (x w : string) :
  w ≠ EmptyString → ends_plain (x +:+ w) = ends_plain w.
Proof.
  intros Hw. induction x as [| c x IH]; [done |].
  simpl. destruct (x +:+ w) eqn:Hxw; [| done].
  destruct x; simpl in Hxw; [done | discriminate].
Qed.

Lemma word_inv (w : string) :
  word w = true →
  ∃ a w', w = String a w' ∧ is_white a = false ∧ unspaced w' = true.
Proof.
  unfold word. destruct w as [| a w']; simpl; [done |].
  intros [[Ha _]%andb_true_iff Hp]%andb_true_iff.
  apply negb_true_iff in Ha. eauto.
Qed.

Lemma plain_ends_plain (a : Ascii.ascii) (w : string) :
  is_white a = false → unspaced w = true → ends_plain (String a w) = true.
Proof.
  revert a. induction w as [| c w IH]; intros a Ha Hw; simpl.
  - by rewrite Ha.
  - simpl in Hw. apply andb_true_iff in Hw as [[Hc%negb_true_iff _]%andb_true_iff Hw].
    by apply IH.
Qed.

Lemma split_runs_plain (w rest : string) :
  unspaced w = true →
  split_runs (w +:+ rest) =
  match split_runs rest with
  | h :: t => (w +:+ h) :: t
  | [] => [w]
  end.
Proof.
  induction w as [| c w IH].
  - intros _. change (EmptyString +:+ rest) with rest.
    by destruct (split_runs_cons rest) as (h & t & ->).
  - simpl. intros [[Hc%negb_true_iff _]%andb_true_iff Hw]%andb_true_iff.
    change (String c w +:+ rest) with (String c (w +:+ rest)). simpl.
    rewrite (not_white_not_space c Hc), (IH Hw).
    by destruct (split_runs rest).
Qed.

Lemma split_runs_spaces (n : nat) (a : Ascii.ascii) (x : string) :
  is_white a = false →
  split_runs (spaces (S n) +:+ String a x) = EmptyString :: split_runs (String a x).
Proof.
  intros Ha. induction n as [| n IH].
  - simpl. by rewrite (not_white_not_space a Ha).
  - change (spaces (S (S n)) +:+ String a x)
      with (String " "%char (String " "%char (spaces n +:+ String a x))).
    change (String " "%char (spaces n +:+ String a x)) with (spaces (S n) +:+ String a x) in *.
    rewrite <- IH. done.
Qed.

Lemma append_empty_r (s : string) : s +:+ EmptyString = s.
Proof.
  induction s as [| c s IH]; [done |].
  change (String c s +:+ EmptyString) with (String c (s +:+ EmptyString)). by rewrite IH.
Qed.

Lemma word_plain (w : string) : word w = true → unspaced w = true.
Proof. by intros [_ ?]%andb_true_iff. Qed.

Lemma split_runs_words (c : string) (ws : list (nat * string)) :
  unspaced c = true →
  Forall (λ nw, word nw.2 = true) ws →
  split_runs (c +:+ spaced ws) = c :: map snd ws.
Proof.
  revert c. induction ws as [| [n w] r IH]; intros c Hc Hws.
  - simpl. rewrite split_runs_plain by done. simpl. by rewrite append_empty_r.
  - apply Forall_cons in Hws as [Hw Hr]. simpl in Hw.
    destruct (word_inv w Hw) as (a & w' & -> & Ha & Hw').
    rewrite split_runs_plain by done.
    change (spaced ((n, String a w') :: r))
      with (spaces (S n) +:+ String a (w' +:+ spaced r)).
    rewrite split_runs_spaces by done.
    change (String a (w' +:+ spaced r)) with (String a w' +:+ spaced r).
    rewrite IH by (done || by apply word_plain). simpl. by rewrite append_empty_r.
Qed.

Lemma spaced_words_end_plain (c : string) (ws : list (nat * string)) :
  word c = true →
  Forall (λ nw, word nw.2 = true) ws →
  ends_plain (c +:+ spaced ws) = true.
Proof.
  revert c. induction ws as [| [n w] r IH]; intros c Hc Hws.
  - simpl. rewrite append_empty_r.
    destruct (word_inv c Hc) as (a & c' & -> & Ha & Hc'). by apply plain_ends_plain.
  - apply Forall_cons in Hws as [Hw Hr]. simpl in Hw.
    change (spaced ((n, w) :: r)) with (String " "%char (spaces n +:+ (w +:+ spaced r))).
    rewrite ends_plain_app by done.
    change (String " "%char (spaces n +:+ (w +:+ spaced r)))
      with (spaces (S n) +:+ (w +:+ spaced r)).
    destruct (word_inv w Hw) as (a & w' & Heq & Ha & Hw').
    rewrite ends_plain_app; [by apply IH |]. by rewrite Heq.
Qed.

(** What [trim], [split(/ +/)], [shift] and [join(' ')] make of the text
    after the prefix. *)
Lemma parse_words (k : ascii) (lead trail c : string) (ws : list (nat * string)) :
  white lead = true →
  white trail = true →
  word c = true →
  Forall (λ nw, word nw.2 = true) ws →
  parse (String k (lead +:+ ((c +:+ spaced ws) +:+ trail))) =
    (command_named (toLowerCase c), String.concat " " (map snd ws)).
Proof.
  intros Hl Ht Hc Hws.
  unfold parse, trim. simpl. rewrite trim_start_white by done.
  destruct (word_inv c Hc) as (a & c' & Heq & Ha & Hc').
  assert (Hstart : trim_start ((c +:+ spaced ws) +:+ trail) = (c +:+ spaced ws) +:+ trail).
  { rewrite Heq.
    change ((String a c' +:+ spaced ws) +:+ trail)
      with (String a ((c' +:+ spaced ws) +:+ trail)).
    simpl. by rewrite Ha. }
  rewrite Hstart, trim_end_white by done.
  rewrite trim_end_ends_plain by by apply spaced_words_end_plain.
  rewrite split_runs_words by (done || by apply word_plain). done.
Qed.

Lemma prefix_bang (s : string) : String.prefix "!" (String "!"%char s) = true.
Proof. simpl. by destruct s. Qed.

(** X13: how the second script reads a text: after the ['!'], white space
    around the text is dropped, the first word, lower-cased, selects the
    command, and the other words, however many spaces separate them, are
    joined by single spaces into [search]. *)
Theorem received_words (lead trail c : string) (ws : list (nat * string)) (bot : bool)
    (g : guild_id) (ch : channel_id) (v : option channel_id) (connect speak : bool) :
  white lead = true →
  white trail = true →
  word c = true →
  Forall (λ nw, word nw.2 = true) ws →
  received (String "!"%char (lead +:+ ((c +:+ spaced ws) +:+ trail))) bot g ch v connect speak =
  Message true bot g ch v connect speak
    (command_named (toLowerCase c)) (String.concat " " (map snd ws)).
Proof.
  intros Hl Ht Hc Hws. unfold received.
  rewrite parse_words by done. by rewrite prefix_bang.
Qed.

Lemma received_words_witness :
  received (String "!"%char ("  " +:+ (("PLAY" +:+ spaced [(0, "never"); (2, "gonna")]) +:+ " ")))
    false 1 7 (Some 9) true true =
  Message true false 1 7 (Some 9) true true
    (command_named (toLowerCase "PLAY"))
    (String.concat " " (map snd [(0, "never"); (2, "gonna")])).
Proof.
  apply (received_words "  " " " "PLAY" [(0, "never"); (2, "gonna")]).
  - reflexivity.
  - reflexivity.
  - reflexivity.
  - repeat constructor.
Defined.

(** X14: [!play] with nothing but white space after it is answered with
    'Provide a song name or link.', whatever the store holds, for a member
    who is in a voice channel where the bot may connect and speak. *)
Theorem play_without_words_asks_for_song (lead trail c : string) (g : guild_id)
    (ch vc : channel_id) (res : resolution) (ok : bool) (w : world) :
  white lead = true →
  white trail = true →
  word c = true →
  toLowerCase c = "play" →
  messageCreate
    (received (String "!"%char (lead +:+ ((c +:+ spaced []) +:+ trail))) false g ch (Some vc)
       true true) res ok w =
  (Done (), add_log (Reply ProvideSong) w).
Proof.
  intros Hl Ht Hc Hplay. unfold received.
  rewrite (parse_words _ lead trail c []), prefix_bang by done.
  rewrite Hplay. done.
Qed.

Lemma play_without_words_asks_for_song_witness :
  messageCreate
    (received (String "!"%char ("" +:+ (("Play" +:+ spaced []) +:+ "   "))) false 1 7 (Some 9)
       true true) LookupThrows false playing_A =
  (Done (), add_log (Reply ProvideSong) playing_A).
Proof.
  apply (play_without_words_asks_for_song "" "   " "Play" 1 7 9 LookupThrows false playing_A).
  - reflexivity.
  - reflexivity.
  - reflexivity.
  - reflexivity.
Defined.
